(** * Pausable: a start / stop / pause / resume controller for an observable

    Shallow embedding of [createPausable] (src/index.ts) and of its types
    (src/types.ts), and the properties of its state machine and relay.

    The controller is a closure over two immutable parameters ([source$],
    [observer]) and two mutable cells ([state], [sourceSubscription]).  The
    cells live in a [World] together with what the controller's environment
    can observe: the trace of calls the controller makes on its two
    collaborators (the source and the sink), the number of subscriptions
    the source has created so far, and the current fields of the sink
    objects, which are ordinary mutable JavaScript objects owned by the
    caller.

    Sink callbacks are foreign code.  Invoking one is recorded in the trace;
    before it returns, a callback may call operations of the controller it
    is attached to ([reaction]), and these calls run inside the operation or
    the delivery that invoked the callback.  Calls nest, so the operations
    are defined over the controller the callbacks reach ([self]) and closed
    by a bound on the nesting ([pausable]); a computation that would nest
    deeper than the bound has no result.  Cancelling a subscription is a
    call on the source that runs no code of the caller. *)

From Stdlib Require Import List Arith Lia Bool.
Import ListNotations.

Set Implicit Arguments.

(** ** types.ts *)

(** [type Command = 'start' | 'stop' | 'pause' | 'resume'] *)
Inductive Command : Type := Start | Stop | Pause | Resume.

(** [type State = 'stopped' | 'running' | 'paused'] *)
Inductive State : Type := stopped | running | paused.

(** [===] on states. *)
Definition State_eqb (a b : State) : bool :=
  match a, b with
  | stopped, stopped | running, running | paused, paused => true
  | _, _ => false
  end.

(** A JavaScript function value, known by its identity. *)
Definition Fn := nat.

(** The identity of a sink object on the caller's heap. *)
Definition Ref := nat.

(** [Partial<Observer<T>>]: each handler may be missing. *)
Record PartialObserver : Type := mkObserver {
  next : option Fn;
  error : option Fn;
  complete : option Fn
}.

(** [type SubArgs<T> = Partial<Observer<T>> | ((value: T) => void)].
    An object is held by reference. *)
Inductive SubArgs : Type :=
| SubFn (f : Fn)
| SubObj (r : Ref).

(** An rxjs [Subscription], known by its identity. *)
Definition Subscription := nat.

(** The caller's heap: the current fields of every sink object. *)
Definition Heap := Ref -> PartialObserver.

Definition heap_set (h : Heap) (r : Ref) (o : PartialObserver) : Heap :=
  fun r' => if Nat.eqb r' r then o else h r'.

Section Pausable.

Variables T Err : Type.

(** What a source pushes to a subscriber. *)
Inductive Notification : Type :=
| NextN (value : T)
| ErrorN (err : Err)
| CompleteN.

(** An observable, seen from the controller: what it delivers
    synchronously, inside [subscribe], to the subscription it is creating.
    Anything delivered later is an action of the environment. *)
Definition Observable := Subscription -> list Notification.

(** Calls the controller makes on its collaborators. *)
Inductive Effect : Type :=
| Subscribe (s : Subscription)
| Unsubscribe (s : Subscription)
| CallNext (f : Fn) (value : T)
| CallError (f : Fn) (err : Err)
| CallComplete (f : Fn).

Record World : Type := mkWorld {
  state : State;
  sourceSubscription : option Subscription;
  created : Subscription;
  heap : Heap;
  trace : list Effect
}.

(** ** A state monad over the world *)

(** [None]: the calls nest deeper than the bound. *)
Definition M (A : Type) : Type := World -> option (A * World).

Definition ret {A} (a : A) : M A := fun w => Some (a, w).

Definition bind {A B} (m : M A) (k : A -> M B) : M B :=
  fun w =>
    match m w with
    | Some (a, w') => k a w'
    | None => None
    end.

Definition too_deep {A} : M A := fun _ => None.

Definition exec {A} (m : M A) (w : World) : option World :=
  match m w with
  | Some (_, w') => Some w'
  | None => None
  end.

Notation "x <- m ;; k" := (bind m (fun x => k))
  (at level 61, m at next level, right associativity).
Notation "m ;; k" := (bind m (fun _ => k))
  (at level 61, right associativity).

Definition get_state : M State := fun w => Some (state w, w).

Definition with_state (s : State) (w : World) : World :=
  mkWorld s (sourceSubscription w) (created w) (heap w) (trace w).

Definition set_state (s : State) : M unit := fun w => Some (tt, with_state s w).

Definition get_sourceSubscription : M (option Subscription) :=
  fun w => Some (sourceSubscription w, w).

Definition with_sourceSubscription (o : option Subscription) (w : World)
  : World :=
  mkWorld (state w) o (created w) (heap w) (trace w).

Definition set_sourceSubscription (o : option Subscription) : M unit :=
  fun w => Some (tt, with_sourceSubscription o w).

(** Reading the fields of a sink object. *)
Definition deref (r : Ref) : M PartialObserver := fun w => Some (heap w r, w).

(** Appending calls to the trace, everything else untouched. *)
Definition log (es : list Effect) (w : World) : World :=
  mkWorld (state w) (sourceSubscription w) (created w) (heap w)
          (trace w ++ es).

(** A call on a collaborator. *)
Definition emit (e : Effect) : M unit := fun w => Some (tt, log [e] w).

(** The source creates a new subscription object. *)
Definition new_subscription : M Subscription := fun w =>
  Some (created w,
        mkWorld (state w) (sourceSubscription w) (S (created w)) (heap w)
                (trace w)).

Fixpoint for_each {A} (f : A -> M unit) (l : list A) : M unit :=
  match l with
  | [] => ret tt
  | a :: l' => f a ;; for_each f l'
  end.

(** ** index.ts *)

Variable source : Observable.
Variable observer : option SubArgs.

(** The operations a sink callback calls on the controller, in order, when
    it is invoked with a notification. *)
Variable reaction : Fn -> Notification -> list Command.

(** The call of callback [f] that hands it notification [n]. *)
Definition call_of (f : Fn) (n : Notification) : Effect :=
  match n with
  | NextN v => CallNext f v
  | ErrorN e => CallError f e
  | CompleteN => CallComplete f
  end.

Section Controller.

(** The controller as the sink callbacks reach it. *)
Variable self : Command -> M unit.

(** Calling a sink callback: control passes to the callback, which runs
    its calls on the controller and returns. *)
Definition invoke (f : Fn) (n : Notification) : M unit :=
  emit (call_of f n) ;;
  for_each self (reaction f n).

(** The [next] handler installed by [subscribe]. *)
Definition relay_next (value : T) : M unit :=
  st <- get_state ;;
  if State_eqb st running then
    match observer with
    | Some (SubFn f) =>              (* typeof observer === 'function' *)
        invoke f (NextN value)
    | Some (SubObj r) =>             (* else if (observer?.next) *)
        o <- deref r ;;
        match next o with
        | Some f => invoke f (NextN value)
        | None => ret tt
        end
    | None => ret tt
    end
  else ret tt.

(** The [error] handler installed by [subscribe]. *)
Definition relay_error (err : Err) : M unit :=
  match observer with
  | Some (SubObj r) => (* typeof observer === 'object' && observer?.error *)
      o <- deref r ;;
      match error o with
      | Some f => invoke f (ErrorN err)
      | None => ret tt
      end
  | _ => ret tt
  end.

(** The [complete] handler installed by [subscribe]. *)
Definition relay_complete : M unit :=
  match observer with
  | Some (SubObj r) => (* typeof observer === 'object' && observer?.complete *)
      o <- deref r ;;
      match complete o with
      | Some f => invoke f CompleteN
      | None => ret tt
      end
  | _ => ret tt
  end.

(** The source pushes one notification into the installed handlers. *)
Definition notify (n : Notification) : M unit :=
  match n with
  | NextN v => relay_next v
  | ErrorN e => relay_error e
  | CompleteN => relay_complete
  end.

(** [source$.subscribe({ next, error, complete })]: the source creates the
    subscription, pushes what it delivers synchronously, and returns. *)
Definition source_subscribe : M Subscription :=
  s <- new_subscription ;;
  emit (Subscribe s) ;;
  for_each notify (source s) ;;
  ret s.

Definition subscribe : M unit :=
  s <- source_subscribe ;;
  set_sourceSubscription (Some s).

Definition unsubscribe : M unit :=
  sub <- get_sourceSubscription ;;
  match sub with
  | Some s =>
      emit (Unsubscribe s) ;;
      set_sourceSubscription None
  | None => ret tt
  end.

Definition start : M unit :=
  st <- get_state ;;
  if negb (State_eqb st stopped) then ret tt
  else
    set_state running ;;
    subscribe.

Definition stop : M unit :=
  st <- get_state ;;
  if State_eqb st stopped then ret tt
  else
    set_state stopped ;;
    unsubscribe.

Definition pause : M unit :=
  st <- get_state ;;
  if negb (State_eqb st running) then ret tt
  else
    set_state paused ;;
    unsubscribe.

Definition resume : M unit :=
  st <- get_state ;;
  if negb (State_eqb st paused) then ret tt
  else
    set_state running ;;
    subscribe.

(** [const ACTIONS = { start, stop, pause, resume }] *)
Definition ACTIONS (action : Command) : M unit :=
  match action with
  | Start => start
  | Stop => stop
  | Pause => pause
  | Resume => resume
  end.

Definition command (action : Command) : M unit := ACTIONS action.

End Controller.

(** The controller whose callbacks can nest calls at most [depth] deep. *)
Fixpoint pausable (depth : nat) (action : Command) : M unit :=
  match depth with
  | 0 => too_deep
  | S d => command (pausable d) action
  end.

(** The cells of a freshly created controller, in a world where nothing has
    happened yet. *)
Definition createPausable (h : Heap) : World :=
  mkWorld stopped None 0 h [].

(** ** The environment *)

(** What can happen to a controller between two observations: the caller
    invokes an operation; the source delivers a notification to the handlers
    it was given; the caller rewrites the fields of one of its sink
    objects. *)
Inductive Action : Type :=
| Call (action : Command)
| Deliver (n : Notification)
| Mutate (r : Ref) (o : PartialObserver).

Definition mutate (r : Ref) (o : PartialObserver) : M unit := fun w =>
  Some (tt, mkWorld (state w) (sourceSubscription w) (created w)
                    (heap_set (heap w) r o) (trace w)).

(** One action, the callbacks it invokes nesting at most [depth] calls. *)
Definition step (depth : nat) (w : World) (a : Action) : option World :=
  match a with
  | Call c => exec (command (pausable depth) c) w
  | Deliver n => exec (notify (pausable depth) n) w
  | Mutate r o => exec (mutate r o) w
  end.

Fixpoint run (depth : nat) (acts : list Action) (w : World) : option World :=
  match acts with
  | [] => Some w
  | a :: acts' =>
      match step depth w a with
      | Some w' => run depth acts' w'
      | None => None
      end
  end.

(** The world a controller created over heap [h] is in after [acts]. *)
Definition reached (depth : nat) (h : Heap) (acts : list Action)
  : option World :=
  run depth acts (createPausable h).

(** ** Vocabulary of the specification *)

(** The three channels of a sink, each independently optional. *)
Record Handlers : Type := mkHandlers {
  onValue : option Fn;
  onError : option Fn;
  onComplete : option Fn
}.

(** The channels the sink has when its fields are those of [h]: a callable
    is the value channel and nothing else; an object has the channels it
    carries; no sink has none. *)
Definition normalize (h : Heap) : Handlers :=
  match observer with
  | Some (SubFn f) => mkHandlers (Some f) None None
  | Some (SubObj r) => mkHandlers (next (h r)) (error (h r)) (complete (h r))
  | None => mkHandlers None None None
  end.

(** The relay contract: the channel a notification goes to, if any.  A
    value goes to the value channel only in state [running]; an error and a
    completion go to their channel in any state. *)
Definition relay_target (st : State) (hs : Handlers) (n : Notification)
  : option Fn :=
  match n with
  | NextN _ =>
      match st with
      | running => onValue hs
      | stopped | paused => None
      end
  | ErrorN _ => onError hs
  | CompleteN => onComplete hs
  end.

(** The relay the specification describes: it works from a record of
    channels resolved beforehand and looks at nothing else of the sink. *)
Definition relay_resolved (self : Command -> M unit) (hs : Handlers)
           (n : Notification) : M unit :=
  st <- get_state ;;
  match relay_target st hs n with
  | Some f => invoke self f n
  | None => ret tt
  end.

(** The sink calls the relay contract prescribes for a list of
    notifications delivered in state [st]. *)
Definition relay_calls (st : State) (hs : Handlers) (ns : list Notification)
  : list Effect :=
  flat_map (fun n =>
              match relay_target st hs n with
              | Some f => [call_of f n]
              | None => []
              end) ns.

(** The sink callbacks return without calling the controller. *)
Definition passive : Prop := forall f n, reaction f n = [].

(** The sink callbacks do not call the controller on a notification that
    the source delivers while a subscription is being created. *)
Definition calm : Prop :=
  forall s n f, In n (source s) -> reaction f n = [].

(** Does action [a] rewrite the fields of the sink object? *)
Definition rewrites_sink (a : Action) : bool :=
  match observer, a with
  | Some (SubObj r), Mutate r' _ => Nat.eqb r r'
  | _, _ => false
  end.

(** The values handed to sink callbacks, in trace order. *)
Fixpoint next_calls (es : list Effect) : list (Fn * T) :=
  match es with
  | [] => []
  | CallNext f v :: es' => (f, v) :: next_calls es'
  | _ :: es' => next_calls es'
  end.

(** The values among a list of notifications, in order. *)
Fixpoint values_of (ns : list Notification) : list T :=
  match ns with
  | [] => []
  | NextN v :: ns' => v :: values_of ns'
  | _ :: ns' => values_of ns'
  end.

(** How many times subscription [s] was cancelled. *)
Fixpoint cancels (s : Subscription) (es : list Effect) : nat :=
  match es with
  | [] => 0
  | Unsubscribe s' :: es' =>
      (if Nat.eqb s' s then 1 else 0) + cancels s es'
  | _ :: es' => cancels s es'
  end.

(** Entering [running] when the sink does not call back meanwhile: a new
    subscription is created and stored; what the source delivers while it
    is being created passes through the relay, the state being [running]
    already. *)
Definition enter_running (w : World) : World :=
  mkWorld running (Some (created w)) (S (created w)) (heap w)
          (trace w ++
           Subscribe (created w) ::
           relay_calls running (normalize (heap w)) (source (created w))).

(** Leaving [running] for [st]: the stored subscription, if there is one,
    is cancelled and forgotten. *)
Definition leave_running (st : State) (w : World) : World :=
  mkWorld st None (created w) (heap w)
          (trace w ++
           match sourceSubscription w with
           | Some s => [Unsubscribe s]
           | None => []
           end).

(** The transition table of the specification. *)
Definition transition (c : Command) (w : World) : World :=
  match c, state w with
  | Start, stopped => enter_running w
  | Pause, running => leave_running paused w
  | Resume, paused => enter_running w
  | Stop, (running | paused) => leave_running stopped w
  | _, _ => w
  end.

(** Invariant I1 of the specification. *)
Definition I1 (w : World) : Prop :=
  sourceSubscription w <> None <-> state w = running.

(** The stored subscription is one the source has created and that nobody
    has cancelled; no subscription was cancelled twice; none was cancelled
    before it existed. *)
Record Ledger (w : World) : Prop := mkLedger {
  stored_known : forall s, sourceSubscription w = Some s -> s < created w;
  stored_live :
    forall s, sourceSubscription w = Some s -> cancels s (trace w) = 0;
  cancelled_once : forall s, cancels s (trace w) <= 1;
  none_ahead : forall s, created w <= s -> cancels s (trace w) = 0
}.

(** From [w] to [w']: the heap is the same, the trace and the
    subscriptions were only added to, the ledger is kept, and a
    subscription that was neither stored nor cancelled in [w] is neither in
    [w']. *)
Record Evolves (w w' : World) : Prop := mkEvolves {
  ev_heap : heap w' = heap w;
  ev_trace : exists es, trace w' = trace w ++ es;
  ev_created : created w <= created w';
  ev_ledger : Ledger w -> Ledger w';
  ev_idle : forall s,
      s < created w -> sourceSubscription w <> Some s ->
      cancels s (trace w) = 0 ->
      sourceSubscription w' <> Some s /\ cancels s (trace w') = 0
}.

(** A computation every result of which evolves from its start. *)
Definition evolving (m : M unit) : Prop :=
  forall w w', m w = Some (tt, w') -> Evolves w w'.

(** The state the transition table moves to on command [c]. *)
Definition next_state (c : Command) (st : State) : State :=
  match c, st with
  | Start, stopped => running
  | Pause, running => paused
  | Resume, paused => running
  | Stop, _ => stopped
  | _, _ => st
  end.

(** The operations the caller invokes in a list of actions. *)
Fixpoint commands_of (acts : list Action) : list Command :=
  match acts with
  | [] => []
  | Call c :: acts' => c :: commands_of acts'
  | _ :: acts' => commands_of acts'
  end.

Definition is_start (a : Action) : bool :=
  match a with
  | Call Start => true
  | _ => false
  end.

(** The calls made on the sink, in trace order. *)
Fixpoint sink_calls (es : list Effect) : list Effect :=
  match es with
  | [] => []
  | Subscribe _ :: es' | Unsubscribe _ :: es' => sink_calls es'
  | e :: es' => e :: sink_calls es'
  end.

(** How many times the source was asked for subscription [s]. *)
Fixpoint subscribes (s : Subscription) (es : list Effect) : nat :=
  match es with
  | [] => 0
  | Subscribe s' :: es' =>
      (if Nat.eqb s' s then 1 else 0) + subscribes s es'
  | _ :: es' => subscribes s es'
  end.

(** A cold source serves every subscription alike while creating it. *)
Definition cold : Prop := forall s, source s = source 0.

(** What one action does to the world when the sink is passive. *)
Definition effect_of (a : Action) (w : World) : World :=
  match a with
  | Call c => transition c w
  | Deliver n => log (relay_calls (state w) (normalize (heap w)) [n]) w
  | Mutate r o =>
      mkWorld (state w) (sourceSubscription w) (created w)
              (heap_set (heap w) r o) (trace w)
  end.

(** What one action does to the world when the sink is calm: a callback
    that is called runs its operations row by row. *)
Definition calm_effect_of (a : Action) (w : World) : World :=
  match a with
  | Deliver n =>
      match relay_target (state w) (normalize (heap w)) n with
      | Some f =>
          fold_left (fun w c => transition c w) (reaction f n)
                    (log [call_of f n] w)
      | None => w
      end
  | _ => effect_of a w
  end.

(** Every subscription asked for is asked for once, is cancelled once
    unless it is the stored one, and nothing else is cancelled. *)
Record Tidy (w : World) : Prop := mkTidy {
  tidy_I1 : I1 w;
  tidy_stored :
    forall s, sourceSubscription w = Some s ->
              s < created w /\ cancels s (trace w) = 0;
  tidy_closed :
    forall s, s < created w -> sourceSubscription w <> Some s ->
              cancels s (trace w) = 1;
  tidy_opened : forall s, s < created w -> subscribes s (trace w) = 1;
  tidy_ahead :
    forall s, created w <= s ->
              cancels s (trace w) = 0 /\ subscribes s (trace w) = 0
}.

(** Two worlds a passive sink cannot tell apart from now on. *)
Definition alike (w1 w2 : World) : Prop :=
  state w1 = state w2 /\ heap w1 = heap w2.

(** ** Basic facts *)

Lemma log_nil (w : World) : log [] w = w.
Proof. destruct w; unfold log; simpl; now rewrite app_nil_r. Qed.

Lemma log_log (es es' : list Effect) (w : World) :
  log es' (log es w) = log (es ++ es') w.
Proof. unfold log; simpl; now rewrite app_assoc. Qed.

Lemma passive_calm : passive -> calm.
Proof. intros Hp s n f _. apply Hp. Qed.

(** The relay of the code is the relay of the contract, over the channels
    the sink has at the moment of the delivery. *)
Lemma notify_contract (self : Command -> M unit) (n : Notification)
      (w : World) :
  notify self n w = relay_resolved self (normalize (heap w)) n w.
Proof.
  unfold relay_resolved, normalize, bind; simpl.
  destruct n as [v | e |]; simpl;
    unfold relay_next, relay_error, relay_complete, bind; simpl.
  - destruct (state w); simpl; try reflexivity;
      destruct observer as [[f | r] |]; reflexivity.
  - destruct observer as [[f | r] |]; reflexivity.
  - destruct observer as [[f | r] |]; reflexivity.
Qed.

Lemma invoke_quiet (self : Command -> M unit) (f : Fn) (n : Notification)
      (w : World) :
  reaction f n = [] -> invoke self f n w = Some (tt, log [call_of f n] w).
Proof. intro Hq. unfold invoke, bind; simpl. now rewrite Hq. Qed.

Lemma notify_quiet (self : Command -> M unit) (n : Notification)
      (w : World) :
  (forall f, reaction f n = []) ->
  notify self n w =
  Some (tt, log (relay_calls (state w) (normalize (heap w)) [n]) w).
Proof.
  intro Hq. rewrite notify_contract.
  unfold relay_resolved, relay_calls, bind; simpl.
  destruct (relay_target (state w) (normalize (heap w)) n) as [f |]; simpl.
  - now apply invoke_quiet.
  - unfold ret. now rewrite log_nil.
Qed.

Lemma for_each_notify_quiet (self : Command -> M unit)
      (ns : list Notification) (w : World) :
  (forall n f, In n ns -> reaction f n = []) ->
  for_each (notify self) ns w =
  Some (tt, log (relay_calls (state w) (normalize (heap w)) ns) w).
Proof.
  revert w; induction ns as [| n ns IH]; intros w Hq; simpl.
  - unfold ret. now rewrite log_nil.
  - unfold bind. rewrite notify_quiet by (intro f; apply Hq; now left).
    rewrite IH by (intros n' f Hin; apply Hq; now right); simpl.
    rewrite log_log. unfold relay_calls; simpl. now rewrite app_nil_r.
Qed.

Lemma subscribe_calm (self : Command -> M unit) (w : World) :
  calm ->
  subscribe self w =
  Some (tt,
        mkWorld (state w) (Some (created w)) (S (created w)) (heap w)
                (trace w ++
                 Subscribe (created w) ::
                 relay_calls (state w) (normalize (heap w))
                             (source (created w)))).
Proof.
  intro Hc. unfold subscribe, source_subscribe, bind; simpl.
  rewrite for_each_notify_quiet by (intros n f; apply Hc); simpl.
  unfold with_sourceSubscription, log; simpl. now rewrite <- app_assoc.
Qed.

Lemma subscribe_stores (self : Command -> M unit) (w w' : World) :
  subscribe self w = Some (tt, w') ->
  sourceSubscription w' = Some (created w).
Proof.
  unfold subscribe, source_subscribe, bind; simpl.
  destruct (for_each (notify self) (source (created w)) _) as [[[] w2] |];
    simpl; [ | discriminate ].
  intro H; injection H as <-. reflexivity.
Qed.

Lemma unsubscribe_eq (w : World) :
  unsubscribe w =
  Some (tt,
        match sourceSubscription w with
        | Some s =>
            mkWorld (state w) None (created w) (heap w)
                    (trace w ++ [Unsubscribe s])
        | None => w
        end).
Proof.
  unfold unsubscribe, bind; simpl.
  destruct (sourceSubscription w); reflexivity.
Qed.

Lemma leave_eq (st : State) (w : World) :
  (set_state st ;; unsubscribe) w = Some (tt, leave_running st w).
Proof.
  unfold bind, set_state. rewrite unsubscribe_eq.
  unfold leave_running, with_state; simpl.
  destruct (sourceSubscription w); simpl; [ reflexivity | ].
  now rewrite app_nil_r.
Qed.

Lemma pause_eq (w : World) :
  pause w =
  Some (tt, match state w with running => leave_running paused w | _ => w end).
Proof.
  pose proof (leave_eq paused w) as Hl.
  unfold pause, bind in *; simpl in *.
  destruct (state w); simpl; try reflexivity. exact Hl.
Qed.

Lemma stop_eq (w : World) :
  stop w =
  Some (tt, match state w with stopped => w | _ => leave_running stopped w end).
Proof.
  pose proof (leave_eq stopped w) as Hl.
  unfold stop, bind in *; simpl in *.
  destruct (state w); simpl; try reflexivity; exact Hl.
Qed.

Lemma start_eq (self : Command -> M unit) (w : World) :
  start self w =
  match state w with
  | stopped => subscribe self (with_state running w)
  | _ => Some (tt, w)
  end.
Proof. unfold start, bind; simpl. destruct (state w); reflexivity. Qed.

Lemma resume_eq (self : Command -> M unit) (w : World) :
  resume self w =
  match state w with
  | paused => subscribe self (with_state running w)
  | _ => Some (tt, w)
  end.
Proof. unfold resume, bind; simpl. destruct (state w); reflexivity. Qed.

Lemma enter_calm (self : Command -> M unit) (w : World) :
  calm ->
  subscribe self (with_state running w) = Some (tt, enter_running w).
Proof. intro Hc. now rewrite (subscribe_calm self _ Hc). Qed.

(** With a calm sink every operation is the transition table's row. *)
Lemma command_calm (self : Command -> M unit) (c : Command) (w : World) :
  calm -> command self c w = Some (tt, transition c w).
Proof.
  intro Hc. destruct c; unfold command, ACTIONS, transition.
  - rewrite start_eq. destruct (state w); try reflexivity.
    now apply enter_calm.
  - rewrite stop_eq. destruct (state w); reflexivity.
  - rewrite pause_eq. destruct (state w); reflexivity.
  - rewrite resume_eq. destruct (state w); try reflexivity.
    now apply enter_calm.
Qed.

(** ** How operations and deliveries move the world *)

Lemma cancels_app (s : Subscription) (es es' : list Effect) :
  cancels s (es ++ es') = cancels s es + cancels s es'.
Proof.
  induction es as [| e es IH]; simpl; [ reflexivity | ].
  destruct e; simpl; rewrite IH; try reflexivity.
  now rewrite Nat.add_assoc.
Qed.

Lemma cancels_relay_calls (s : Subscription) (st : State) (hs : Handlers)
      (ns : list Notification) :
  cancels s (relay_calls st hs ns) = 0.
Proof.
  unfold relay_calls. induction ns as [| n ns IH]; simpl; [ reflexivity | ].
  rewrite cancels_app, IH, Nat.add_0_r.
  destruct (relay_target st hs n); [ | reflexivity ].
  destruct n; reflexivity.
Qed.

Lemma Evolves_refl (w : World) : Evolves w w.
Proof. constructor; auto. exists []. now rewrite app_nil_r. Qed.

Lemma Evolves_trans (w1 w2 w3 : World) :
  Evolves w1 w2 -> Evolves w2 w3 -> Evolves w1 w3.
Proof.
  intros [Hh1 [es1 Ht1] Hc1 HL1 Hi1] [Hh2 [es2 Ht2] Hc2 HL2 Hi2].
  constructor.
  - congruence.
  - exists (es1 ++ es2). now rewrite Ht2, Ht1, app_assoc.
  - lia.
  - auto.
  - intros s Hs Hn Hz. destruct (Hi1 s Hs Hn Hz) as [Hn2 Hz2].
    apply Hi2; auto. lia.
Qed.

(** Calls that cancel nothing. *)
Lemma Evolves_log (es : list Effect) (w : World) :
  (forall s, cancels s es = 0) -> Evolves w (log es w).
Proof.
  intro Hes.
  assert (Hc : forall s, cancels s (trace w ++ es) = cancels s (trace w)).
  { intro s. rewrite cancels_app, Hes. lia. }
  constructor; simpl; auto.
  - now exists es.
  - intros [Hk Hl Ho Hf]. constructor; simpl; intros; rewrite ?Hc; auto.
  - intros s _ Hn Hz. rewrite Hc. auto.
Qed.

Lemma Evolves_with_state (st : State) (w : World) :
  Evolves w (with_state st w).
Proof.
  constructor; simpl; auto.
  - exists []. now rewrite app_nil_r.
  - intros [Hk Hl Ho Hf]. constructor; simpl; auto.
Qed.

Lemma Evolves_leave (st : State) (w : World) :
  Evolves w (leave_running st w).
Proof.
  constructor; simpl; auto.
  - eexists; reflexivity.
  - intros [Hk Hl Ho Hf]. constructor; simpl; intros; try discriminate.
    + rewrite cancels_app.
      destruct (sourceSubscription w) as [s0 |] eqn:Hs; simpl.
      * destruct (Nat.eqb_spec s0 s) as [-> | Hne].
        -- rewrite (Hl s eq_refl). lia.
        -- specialize (Ho s). lia.
      * specialize (Ho s). lia.
    + rewrite cancels_app, (Hf s H).
      destruct (sourceSubscription w) as [s0 |] eqn:Hs; simpl;
        [ | reflexivity ].
      destruct (Nat.eqb_spec s0 s) as [-> | Hne]; [ | reflexivity ].
      specialize (Hk s eq_refl). lia.
  - intros s _ Hn Hz. split; [ discriminate | ].
    rewrite cancels_app, Hz.
    destruct (sourceSubscription w) as [s0 |]; simpl; [ | reflexivity ].
    destruct (Nat.eqb_spec s0 s) as [-> | Hne]; [ now elim Hn | reflexivity ].
Qed.

Lemma evolving_ret : evolving (ret tt).
Proof. intros w w' H; injection H as <-. apply Evolves_refl. Qed.

Lemma evolving_bind (m k : M unit) :
  evolving m -> evolving k -> evolving (m ;; k).
Proof.
  intros Hm Hk w w' H. unfold bind in H.
  destruct (m w) as [[[] w1] |] eqn:Hmw; [ | discriminate ].
  eapply Evolves_trans; eauto.
Qed.

Lemma evolving_for_each {A} (f : A -> M unit) (l : list A) :
  (forall a, evolving (f a)) -> evolving (for_each f l).
Proof.
  intro Hf. induction l as [| a l IH]; simpl.
  - apply evolving_ret.
  - apply evolving_bind; auto.
Qed.

Section Evolution.

Variable self : Command -> M unit.
Hypothesis evolving_self : forall c, evolving (self c).

Lemma evolving_invoke (f : Fn) (n : Notification) :
  evolving (invoke self f n).
Proof.
  unfold invoke. apply evolving_bind.
  - intros w w' H; injection H as <-. apply Evolves_log.
    intro s. destruct n; reflexivity.
  - now apply evolving_for_each.
Qed.

Lemma evolving_notify (n : Notification) : evolving (notify self n).
Proof.
  intros w w' H. rewrite notify_contract in H.
  unfold relay_resolved, bind in H; simpl in H.
  destruct (relay_target (state w) (normalize (heap w)) n).
  - eapply evolving_invoke; eassumption.
  - eapply evolving_ret; eassumption.
Qed.

Lemma evolving_subscribe : evolving (subscribe self).
Proof.
  intros w w' H. unfold subscribe, source_subscribe, bind in H; simpl in H.
  set (w1 := log [Subscribe (created w)]
                 (mkWorld (state w) (sourceSubscription w) (S (created w))
                          (heap w) (trace w))) in H.
  destruct (for_each (notify self) (source (created w)) w1)
    as [[[] w2] |] eqn:Hw2; simpl in H; [ | discriminate ].
  injection H as <-.
  assert (E12 : Evolves w1 w2).
  { eapply evolving_for_each; [ apply evolving_notify | eassumption ]. }
  assert (Hc1 : forall s, cancels s (trace w1) = cancels s (trace w)).
  { intro s. subst w1; simpl. rewrite cancels_app; simpl. lia. }
  destruct E12 as [Hh [es Ht] Hc HL Hi].
  assert (HL1 : Ledger w -> Ledger w1).
  { intros [Hk Hl Ho Hf]. subst w1.
    constructor; simpl; intros; rewrite ?cancels_app; simpl;
      rewrite ?Nat.add_0_r; auto.
    - specialize (Hk s H). lia.
    - apply Hf. lia. }
  constructor; simpl.
  - now rewrite Hh.
  - exists (Subscribe (created w) :: es). rewrite Ht. subst w1; simpl.
    now rewrite <- app_assoc.
  - subst w1; simpl in *. lia.
  - intro HLw. pose proof (HL (HL1 HLw)) as [Hk2 Hl2 Ho2 Hf2].
    destruct HLw as [Hk Hl Ho Hf].
    destruct (Hi (created w)) as [_ Hz].
    + subst w1; simpl. lia.
    + subst w1; simpl. intro Hs. specialize (Hk _ Hs). lia.
    + rewrite Hc1. apply Hf. lia.
    + constructor; simpl; auto.
      * intros s Hs; injection Hs as <-. subst w1; simpl in *. lia.
      * intros s Hs; injection Hs as <-. exact Hz.
  - intros s Hs Hn Hz.
    destruct (Hi s) as [_ Hz2].
    + subst w1; simpl. lia.
    + subst w1; simpl. exact Hn.
    + now rewrite Hc1.
    + split; [ | exact Hz2 ].
      intro Heq; injection Heq as Heq. lia.
Qed.

Lemma subscribe_trace (w w' : World) :
  subscribe self w = Some (tt, w') ->
  exists es, trace w' = trace w ++ Subscribe (created w) :: es.
Proof.
  intro H. unfold subscribe, source_subscribe, bind in H; simpl in H.
  destruct (for_each (notify self) (source (created w)) _)
    as [[[] w2] |] eqn:Hw2; simpl in H; [ | discriminate ].
  injection H as <-.
  assert (E : Evolves _ w2)
    by (eapply evolving_for_each; [ apply evolving_notify | eassumption ]).
  destruct (ev_trace E) as [es Ht]. exists es; simpl in *.
  now rewrite Ht, <- app_assoc.
Qed.

Lemma evolving_command (c : Command) : evolving (command self c).
Proof.
  intros w w' H. destruct c; unfold command, ACTIONS in H.
  - rewrite start_eq in H. destruct (state w);
      try (injection H as <-; apply Evolves_refl).
    eapply Evolves_trans; [ apply (Evolves_with_state running) | ].
    eapply evolving_subscribe; eassumption.
  - rewrite stop_eq in H. injection H as <-.
    destruct (state w); auto using Evolves_refl, Evolves_leave.
  - rewrite pause_eq in H. injection H as <-.
    destruct (state w); auto using Evolves_refl, Evolves_leave.
  - rewrite resume_eq in H. destruct (state w);
      try (injection H as <-; apply Evolves_refl).
    eapply Evolves_trans; [ apply (Evolves_with_state running) | ].
    eapply evolving_subscribe; eassumption.
Qed.

End Evolution.

Lemma evolving_pausable (depth : nat) (c : Command) :
  evolving (pausable depth c).
Proof.
  revert c; induction depth as [| d IH]; intro c; simpl.
  - intros w w' H; discriminate H.
  - apply evolving_command. exact IH.
Qed.

Lemma Ledger_created (h : Heap) : Ledger (createPausable h).
Proof.
  constructor; simpl; try discriminate; try (intros; reflexivity).
  intros; lia.
Qed.

Lemma Ledger_step (depth : nat) (a : Action) (w w' : World) :
  step depth w a = Some w' -> Ledger w -> Ledger w'.
Proof.
  destruct a as [c | n | r o]; simpl; unfold exec.
  - destruct (command (pausable depth) c w) as [[[] w1] |] eqn:Hc;
      [ | discriminate ].
    intro H; injection H as <-.
    eapply ev_ledger, evolving_command;
      [ apply evolving_pausable | eassumption ].
  - destruct (notify (pausable depth) n w) as [[[] w1] |] eqn:Hn;
      [ | discriminate ].
    intro H; injection H as <-.
    eapply ev_ledger, evolving_notify;
      [ apply evolving_pausable | eassumption ].
  - simpl. intro H; injection H as <-.
    intros [Hk Hl Ho Hf]. constructor; simpl; auto.
Qed.

Lemma Ledger_run (depth : nat) (acts : list Action) (w w' : World) :
  run depth acts w = Some w' -> Ledger w -> Ledger w'.
Proof.
  revert w; induction acts as [| a acts IH]; intros w; simpl.
  - intro H; injection H as <-. auto.
  - destruct (step depth w a) as [w1 |] eqn:Hs; [ | discriminate ].
    intros Hr HL. apply (IH w1 Hr). eapply Ledger_step; eassumption.
Qed.

(** ** The heap *)

Lemma heap_step (depth : nat) (a : Action) (w w' : World) :
  step depth w a = Some w' ->
  heap w' =
  match a with
  | Mutate r o => heap_set (heap w) r o
  | _ => heap w
  end.
Proof.
  destruct a as [c | n | r o]; simpl; unfold exec.
  - destruct (command (pausable depth) c w) as [[[] w1] |] eqn:Hc;
      [ | discriminate ].
    intro H; injection H as <-.
    eapply ev_heap, evolving_command;
      [ apply evolving_pausable | eassumption ].
  - destruct (notify (pausable depth) n w) as [[[] w1] |] eqn:Hn;
      [ | discriminate ].
    intro H; injection H as <-.
    eapply ev_heap, evolving_notify;
      [ apply evolving_pausable | eassumption ].
  - simpl. intro H; injection H as <-. reflexivity.
Qed.

Lemma normalize_run (depth : nat) (acts : list Action) (w w' : World) :
  run depth acts w = Some w' ->
  forallb (fun a => negb (rewrites_sink a)) acts = true ->
  normalize (heap w') = normalize (heap w).
Proof.
  revert w; induction acts as [| a acts IH]; intros w; simpl.
  - intros H _; injection H as <-. reflexivity.
  - destruct (step depth w a) as [w1 |] eqn:Hs; [ | discriminate ].
    intros Hr Hacts. apply andb_prop in Hacts as [Ha Hacts].
    rewrite (IH w1 Hr Hacts), (heap_step _ _ _ Hs).
    unfold normalize, rewrites_sink in *.
    destruct observer as [[f | r] |]; try (destruct a; reflexivity).
    destruct a as [c | n | r' o]; try reflexivity.
    unfold heap_set. now destruct (Nat.eqb r r').
Qed.

(** ** Deliveries *)

Lemma next_calls_app (es es' : list Effect) :
  next_calls (es ++ es') = next_calls es ++ next_calls es'.
Proof.
  induction es as [| e es IH]; simpl; [ reflexivity | ].
  destruct e; simpl; now rewrite IH.
Qed.

Lemma next_calls_gated (st : State) (hs : Handlers) (ns : list Notification) :
  st <> running -> next_calls (relay_calls st hs ns) = [].
Proof.
  intro Hst. unfold relay_calls.
  induction ns as [| n ns IH]; simpl; [ reflexivity | ].
  rewrite next_calls_app, IH, app_nil_r.
  destruct n as [v | e |]; simpl.
  - destruct st; try reflexivity. now elim Hst.
  - destruct (onError hs); reflexivity.
  - destruct (onComplete hs); reflexivity.
Qed.

Lemma next_calls_running (hs : Handlers) (f : Fn) (ns : list Notification) :
  onValue hs = Some f ->
  next_calls (relay_calls running hs ns) = map (pair f) (values_of ns).
Proof.
  intro Hf. unfold relay_calls.
  induction ns as [| n ns IH]; simpl; [ reflexivity | ].
  rewrite next_calls_app, IH.
  destruct n as [v | e |]; simpl.
  - now rewrite Hf.
  - destruct (onError hs); reflexivity.
  - destruct (onComplete hs); reflexivity.
Qed.

Lemma relay_calls_values (hs : Handlers) (f : Fn) (vs : list T) :
  onValue hs = Some f ->
  relay_calls running hs (map NextN vs) = map (CallNext f) vs.
Proof.
  intro Hf. unfold relay_calls.
  induction vs as [| v vs IH]; simpl; [ reflexivity | ].
  now rewrite IH, Hf.
Qed.

(** A value delivered outside [running] is dropped, whatever the sink
    callbacks would do. *)
Lemma relay_next_gated (self : Command -> M unit) (v : T) (w : World) :
  state w <> running -> relay_next self v w = Some (tt, w).
Proof.
  intro Hst. unfold relay_next, bind; simpl.
  destruct (state w); try reflexivity. now elim Hst.
Qed.

Lemma run_values_gated (depth : nat) (vs : list T) (w : World) :
  state w <> running ->
  run depth (map (fun v => Deliver (NextN v)) vs) w = Some w.
Proof.
  intro Hst. induction vs as [| v vs IH]; simpl; [ reflexivity | ].
  unfold exec. now rewrite relay_next_gated.
Qed.

Lemma run_deliver_passive (depth : nat) (ns : list Notification) (w : World) :
  passive ->
  run depth (map Deliver ns) w =
  Some (log (relay_calls (state w) (normalize (heap w)) ns) w).
Proof.
  intro Hp. revert w; induction ns as [| n ns IH]; intro w; simpl.
  - now rewrite log_nil.
  - unfold exec. rewrite notify_quiet by (intro f; apply Hp).
    rewrite IH; simpl. rewrite log_log. unfold relay_calls; simpl.
    now rewrite app_nil_r.
Qed.

(** ** Calm sinks *)

Lemma I1_log (es : list Effect) (w : World) : I1 w -> I1 (log es w).
Proof. intro H; exact H. Qed.

Lemma I1_transition (c : Command) (w : World) : I1 w -> I1 (transition c w).
Proof.
  unfold I1, transition.
  destruct c; destruct (state w) eqn:Hst; simpl; rewrite ?Hst;
    try (intro H; exact H);
    intros _; split; try discriminate; try reflexivity;
    intro H; now elim H.
Qed.

Lemma I1_transitions (cs : list Command) (w : World) :
  I1 w -> I1 (fold_left (fun w c => transition c w) cs w).
Proof.
  revert w; induction cs as [| c cs IH]; intros w H; simpl; auto.
  now apply IH, I1_transition.
Qed.

(** What a callback calls runs row by row. *)
Lemma for_each_pausable_calm (depth : nat) (cs : list Command) (w : World) :
  calm ->
  for_each (pausable (S depth)) cs w =
  Some (tt, fold_left (fun w c => transition c w) cs w).
Proof.
  intro Hc. revert w; induction cs as [| c cs IH]; intro w; simpl.
  - reflexivity.
  - unfold bind. rewrite (command_calm _ c w Hc). apply IH.
Qed.

Lemma step_calm (depth : nat) (a : Action) (w : World) :
  calm ->
  exists w', step (S depth) w a = Some w' /\ (I1 w -> I1 w').
Proof.
  intro Hc. destruct a as [c | n | r o]; simpl; unfold exec.
  - rewrite (command_calm _ c w Hc). eexists; split; [ reflexivity | ].
    apply I1_transition.
  - rewrite notify_contract. unfold relay_resolved, bind; simpl.
    destruct (relay_target (state w) (normalize (heap w)) n) as [f |].
    + unfold invoke, bind; simpl.
      rewrite (for_each_pausable_calm depth _ _ Hc).
      eexists; split; [ reflexivity | ].
      intro H. now apply I1_transitions, I1_log.
    + eexists; split; [ reflexivity | auto ].
  - eexists; split; [ reflexivity | ]. intro H; exact H.
Qed.

Lemma run_calm (depth : nat) (acts : list Action) (w : World) :
  calm ->
  exists w', run (S depth) acts w = Some w' /\ (I1 w -> I1 w').
Proof.
  intro Hc. revert w; induction acts as [| a acts IH]; intro w; simpl.
  - exists w; auto.
  - destruct (step_calm depth a w Hc) as (w1 & Hs & H1). rewrite Hs.
    destruct (IH w1) as (w' & Hr & HI). exists w'; auto.
Qed.

(** ** The transition table *)

(** C1. Each operation follows the transition table, in every world.  In a
    state where its guard fails the operation returns the world it was
    given: nothing is changed, nothing is called.  [pause] from [running],
    and [stop] from [running] or [paused], move to the new state, cancel
    the stored subscription if there is one, and forget it.  [start] from
    [stopped] and [resume] from [paused] set the state to [running], have
    the source create a subscription, and store it when the source returns;
    with a calm sink they always return, the state being [running].  No
    operation has an error case. *)
Theorem transition_table (depth : nat) (w : World) :
  match state w with
  | stopped =>
      start (pausable depth) w =
        subscribe (pausable depth) (with_state running w) /\
      (forall w', exec (start (pausable depth)) w = Some w' ->
                  sourceSubscription w' = Some (created w) /\
                  exists es,
                    trace w' = trace w ++ Subscribe (created w) :: es) /\
      (calm -> exec (start (pausable depth)) w = Some (enter_running w))
  | running | paused => exec (start (pausable depth)) w = Some w
  end /\
  exec pause w =
    Some match state w with
         | running => leave_running paused w
         | stopped | paused => w
         end /\
  match state w with
  | paused =>
      resume (pausable depth) w =
        subscribe (pausable depth) (with_state running w) /\
      (forall w', exec (resume (pausable depth)) w = Some w' ->
                  sourceSubscription w' = Some (created w) /\
                  exists es,
                    trace w' = trace w ++ Subscribe (created w) :: es) /\
      (calm -> exec (resume (pausable depth)) w = Some (enter_running w))
  | stopped | running => exec (resume (pausable depth)) w = Some w
  end /\
  exec stop w =
    Some match state w with
         | running | paused => leave_running stopped w
         | stopped => w
         end.
Proof.
  assert (Hsub : forall w',
             exec (subscribe (pausable depth)) (with_state running w) =
             Some w' ->
             sourceSubscription w' = Some (created w) /\
             exists es, trace w' = trace w ++ Subscribe (created w) :: es).
  { unfold exec. intros w' H.
    destruct (subscribe (pausable depth) (with_state running w))
      as [[[] w1] |] eqn:Hs; [ | discriminate ].
    injection H as <-. split.
    - eapply subscribe_stores in Hs. exact Hs.
    - eapply subscribe_trace in Hs; [ exact Hs | apply evolving_pausable ]. }
  unfold exec in *.
  split; [ | split; [ | split ] ].
  - rewrite start_eq. destruct (state w); try reflexivity.
    split; [ reflexivity | split ].
    + intros w' H. now apply Hsub.
    + intro Hc. now rewrite (enter_calm _ w Hc).
  - rewrite pause_eq. destruct (state w); reflexivity.
  - rewrite resume_eq. destruct (state w); try reflexivity.
    split; [ reflexivity | split ].
    + intros w' H. now apply Hsub.
    + intro Hc. now rewrite (enter_calm _ w Hc).
  - rewrite stop_eq. destruct (state w); reflexivity.
Qed.

(** ** The relay *)

(** C2. While the state is not [running], a value delivered to the relay
    changes nothing and calls nothing, however many values are delivered
    and whatever the sink callbacks would do if called; and with a passive
    sink, whatever the source delivers (values, errors, completions), the
    value channel is not called and the state stays what it was. *)
Theorem gating (depth : nat) (w : World) (ns : list Notification) :
  state w <> running ->
  (forall v, exec (relay_next (pausable depth) v) w = Some w) /\
  (forall vs, run depth (map (fun v => Deliver (NextN v)) vs) w = Some w) /\
  (passive ->
   exists w', run depth (map Deliver ns) w = Some w' /\
              next_calls (trace w') = next_calls (trace w) /\
              state w' = state w).
Proof.
  intro Hst. repeat split.
  - intro v. unfold exec. now rewrite relay_next_gated.
  - intro vs. now apply run_values_gated.
  - intro Hp. eexists; split; [ now apply run_deliver_passive | ].
    simpl. now rewrite next_calls_app, next_calls_gated, app_nil_r.
Qed.

(** C3. When the sink has a value channel [f], a value delivered while the
    state is [running] is handed to [f], in one call, by the relay.  With a
    passive sink that call is all that happens, and values delivered one
    after the other are handed to [f] one by one in the order of delivery.
    With a calm sink the values the source delivers while [start] (from
    [stopped]) or [resume] (from [paused]) is creating the subscription are
    handed to [f] as well, each once and in order, the state being
    [running] before the subscription is created. *)
Theorem forwarding (depth : nat) (w : World) (f : Fn) :
  onValue (normalize (heap w)) = Some f ->
  (state w = running ->
   forall v,
     relay_next (pausable depth) v w =
     invoke (pausable depth) f (NextN v) w) /\
  (passive -> state w = running ->
   (forall v,
      exec (relay_next (pausable depth) v) w = Some (log [CallNext f v] w)) /\
   (forall vs,
      run depth (map (fun v => Deliver (NextN v)) vs) w =
      Some (log (map (CallNext f) vs) w)) /\
   (forall ns,
      exists w', run depth (map Deliver ns) w = Some w' /\
                 next_calls (trace w') =
                 next_calls (trace w) ++ map (pair f) (values_of ns))) /\
  (calm -> state w = stopped ->
   exists w', exec (start (pausable depth)) w = Some w' /\
              state w' = running /\
              next_calls (trace w') =
              next_calls (trace w) ++
              map (pair f) (values_of (source (created w)))) /\
  (calm -> state w = paused ->
   exists w', exec (resume (pausable depth)) w = Some w' /\
              state w' = running /\
              next_calls (trace w') =
              next_calls (trace w) ++
              map (pair f) (values_of (source (created w)))).
Proof.
  intro Hf.
  assert (Henter :
            next_calls (trace (enter_running w)) =
            next_calls (trace w) ++
            map (pair f) (values_of (source (created w)))).
  { simpl. rewrite next_calls_app; simpl.
    now rewrite (next_calls_running _ _ Hf). }
  split; [ | split; [ | split ] ].
  - intros Hst v. pose proof (notify_contract (pausable depth) (NextN v) w)
      as Hn.
    simpl in Hn. rewrite Hn. unfold relay_resolved, bind; simpl.
    now rewrite Hst, Hf.
  - intros Hp Hst.
    assert (Hvs : forall vs,
               run depth (map (fun v => Deliver (NextN v)) vs) w =
               Some (log (map (CallNext f) vs) w)).
    { intro vs.
      rewrite <- (map_map NextN Deliver), (run_deliver_passive _ _ _ Hp).
      now rewrite Hst, (relay_calls_values _ _ Hf). }
    split; [ | split ].
    + intro v. pose proof (Hvs [v]) as Hv; simpl in Hv.
      destruct (exec (relay_next (pausable depth) v) w); congruence.
    + exact Hvs.
    + intro ns. eexists; split; [ now apply run_deliver_passive | ].
      simpl. now rewrite next_calls_app, Hst, (next_calls_running _ _ Hf).
  - intros Hc Hst. exists (enter_running w). unfold exec.
    rewrite start_eq, Hst, (enter_calm _ w Hc). auto.
  - intros Hc Hst. exists (enter_running w). unfold exec.
    rewrite resume_eq, Hst, (enter_calm _ w Hc). auto.
Qed.


(** C6. A completion delivered to the relay is handed to the sink's
    completion channel when the sink has one, and the relay does nothing
    else: it writes neither the state nor the stored subscription.  With a
    passive sink, nothing the source delivers changes either of them, so a
    controller that was [running] when its source completed is still
    [running], with the same subscription stored. *)
Theorem completion_frame (depth : nat) (w : World) :
  relay_complete (pausable depth) w =
    match onComplete (normalize (heap w)) with
    | Some f => invoke (pausable depth) f CompleteN w
    | None => Some (tt, w)
    end /\
  (passive ->
   exec (relay_complete (pausable depth)) w =
     Some (log match onComplete (normalize (heap w)) with
               | Some f => [CallComplete f]
               | None => []
               end w) /\
   forall ns : list Notification,
     exists w', run depth (map Deliver ns) w = Some w' /\
                state w' = state w /\
                sourceSubscription w' = sourceSubscription w).
Proof.
  split.
  - pose proof (notify_contract (pausable depth) CompleteN w) as Hn.
    simpl in Hn. rewrite Hn. unfold relay_resolved, bind; simpl.
    destruct (onComplete (normalize (heap w))); reflexivity.
  - intros Hp. split.
    + pose proof (@notify_quiet (pausable depth) CompleteN w) as Hn.
      simpl in Hn. unfold exec. rewrite Hn by (intro f; apply Hp).
      unfold relay_calls; simpl.
      destruct (onComplete (normalize (heap w))); reflexivity.
    + intro ns. eexists; split; [ now apply run_deliver_passive | ].
      split; reflexivity.
Qed.

(** C8, as the code has it. The relay resolves the sink at each event,
    against the fields the sink object has at that moment; as long as no
    action has rewritten the sink object since the controller was created,
    this is what a relay working from a record resolved at construction
    does. *)
Theorem sink_resolved_at_each_event (depth : nat) (h0 : Heap)
        (acts : list Action) (n : Notification) (w w' : World) :
  notify (pausable depth) n w =
    relay_resolved (pausable depth) (normalize (heap w)) n w /\
  (reached depth h0 acts = Some w' ->
   forallb (fun a => negb (rewrites_sink a)) acts = true ->
   notify (pausable depth) n w' =
   relay_resolved (pausable depth) (normalize h0) n w').
Proof.
  split.
  - apply notify_contract.
  - intros Hr Hacts. rewrite notify_contract.
    now rewrite (normalize_run _ _ _ Hr Hacts).
Qed.

(** ** The dispatcher *)

(** C7. [command] is a dispatch and nothing more: for each of the four
    action names, in every world, it returns what the operation of that
    name returns and leaves the world that operation leaves. *)
Theorem command_is_dispatch (depth : nat) (action : Command) (w : World) :
  command (pausable depth) action w =
  match action with
  | Start => start (pausable depth) w
  | Stop => stop w
  | Pause => pause w
  | Resume => resume (pausable depth) w
  end.
Proof. destruct action; reflexivity. Qed.

(** ** Subscriptions *)

(** Invariant I1 where the code keeps it. With a calm sink, whatever the
    caller, the source and the sink callbacks did since the controller was
    created
    (operations, deliveries, operations called from callbacks on later
    deliveries, rewriting of the sink), at every point between two of these
    actions a subscription is stored if and only if the state is
    [running]; in [running] it is one the source has created and nobody
    has cancelled; in [paused] and in [stopped] nothing is stored. *)
Theorem subscription_iff_running (depth : nat) (h : Heap)
        (acts : list Action) :
  calm ->
  exists w,
    reached (S depth) h acts = Some w /\
    I1 w /\
    match state w with
    | running =>
        exists s, sourceSubscription w = Some s /\
                  s < created w /\ cancels s (trace w) = 0
    | paused | stopped => sourceSubscription w = None
    end.
Proof.
  intro Hc. destruct (run_calm depth acts (createPausable h) Hc)
    as (w & Hr & HI).
  assert (H1 : I1 w).
  { apply HI. unfold I1; simpl.
    split; [ intro H; now elim H | discriminate ]. }
  assert (HL : Ledger w)
    by (eapply Ledger_run; [ exact Hr | apply Ledger_created ]).
  exists w; split; [ exact Hr | split; [ exact H1 | ] ].
  unfold I1 in H1. destruct (state w) eqn:Hst.
  - destruct (sourceSubscription w); [ | reflexivity ].
    assert (stopped = running) by (apply H1; discriminate). discriminate.
  - destruct (sourceSubscription w) as [s |] eqn:Hs.
    + exists s. split; [ reflexivity | split ].
      * now apply (stored_known HL).
      * now apply (stored_live HL).
    + exfalso. now apply (proj2 H1).
  - destruct (sourceSubscription w); [ | reflexivity ].
    assert (paused = running) by (apply H1; discriminate). discriminate.
Qed.

(** C9. [unsubscribe] cancels exactly when a subscription is stored, and
    forgets it in the same step; and whatever the caller, the source and
    the sink callbacks did since the controller was created, no
    subscription has been cancelled more than once. *)
Theorem cancelled_at_most_once (depth : nat) (h : Heap) (acts : list Action)
        (s : Subscription) (w w' : World) :
  unsubscribe w =
    Some (tt,
          match sourceSubscription w with
          | Some s' =>
              mkWorld (state w) None (created w) (heap w)
                      (trace w ++ [Unsubscribe s'])
          | None => w
          end) /\
  (reached depth h acts = Some w' -> cancels s (trace w') <= 1).
Proof.
  split.
  - apply unsubscribe_eq.
  - intro Hr. apply cancelled_once.
    eapply Ledger_run; [ exact Hr | apply Ledger_created ].
Qed.

(** ** Operations in sequence *)

Lemma pause_transition (w : World) : pause w = Some (tt, transition Pause w).
Proof.
  rewrite pause_eq. unfold transition. destruct (state w); reflexivity.
Qed.

Lemma stop_transition (w : World) : stop w = Some (tt, transition Stop w).
Proof.
  rewrite stop_eq. unfold transition. destruct (state w); reflexivity.
Qed.

Lemma subscribes_app (s : Subscription) (es es' : list Effect) :
  subscribes s (es ++ es') = subscribes s es + subscribes s es'.
Proof.
  induction es as [| e es IH]; simpl; [ reflexivity | ].
  destruct e; simpl; rewrite IH; try reflexivity.
  now rewrite Nat.add_assoc.
Qed.

Lemma subscribes_relay_calls (s : Subscription) (st : State) (hs : Handlers)
      (ns : list Notification) :
  subscribes s (relay_calls st hs ns) = 0.
Proof.
  unfold relay_calls. induction ns as [| n ns IH]; simpl; [ reflexivity | ].
  rewrite subscribes_app, IH, Nat.add_0_r.
  destruct (relay_target st hs n); [ | reflexivity ].
  destruct n; reflexivity.
Qed.

Lemma sink_calls_app (es es' : list Effect) :
  sink_calls (es ++ es') = sink_calls es ++ sink_calls es'.
Proof.
  induction es as [| e es IH]; simpl; [ reflexivity | ].
  destruct e; simpl; now rewrite IH.
Qed.

Lemma sink_calls_relay_calls (st : State) (hs : Handlers)
      (ns : list Notification) :
  sink_calls (relay_calls st hs ns) = relay_calls st hs ns.
Proof.
  unfold relay_calls. induction ns as [| n ns IH]; simpl; [ reflexivity | ].
  rewrite sink_calls_app, IH.
  destruct (relay_target st hs n); [ | reflexivity ].
  destruct n; reflexivity.
Qed.

Lemma state_transition (c : Command) (w : World) :
  state (transition c w) = next_state c (state w).
Proof.
  unfold transition, next_state.
  destruct c; destruct (state w) eqn:Hst; simpl; auto.
Qed.

Lemma transition_twice (c : Command) (w : World) :
  transition c (transition c w) = transition c w.
Proof.
  unfold transition at 2.
  destruct c; destruct (state w) eqn:Hst;
    unfold transition; simpl; rewrite ?Hst; reflexivity.
Qed.

Lemma step_passive (depth : nat) (a : Action) (w : World) :
  passive -> step depth w a = Some (effect_of a w).
Proof.
  intro Hp. destruct a as [c | n | r o]; simpl; unfold exec.
  - now rewrite (command_calm _ c w (passive_calm Hp)).
  - now rewrite notify_quiet by (intro f; apply Hp).
  - reflexivity.
Qed.

Lemma run_passive (depth : nat) (acts : list Action) (w : World) :
  passive ->
  run depth acts w = Some (fold_left (fun w a => effect_of a w) acts w).
Proof.
  intro Hp. revert w; induction acts as [| a acts IH]; intro w; simpl.
  - reflexivity.
  - rewrite (step_passive depth a w Hp). apply IH.
Qed.

(** X1. Calling an operation twice in a row is calling it once: for
    [pause] and [stop] with any sink, for [start] and [resume] with a calm
    sink. *)
Theorem operations_idempotent (depth : nat) (c : Command) (w : World) :
  c = Pause \/ c = Stop \/ calm ->
  run depth [Call c; Call c] w = run depth [Call c] w.
Proof.
  intro H.
  assert (Hc : forall w0,
             command (pausable depth) c w0 = Some (tt, transition c w0)).
  { intro w0. destruct H as [-> | [-> | Hcalm]].
    - apply pause_transition.
    - apply stop_transition.
    - now apply command_calm. }
  simpl. unfold exec. rewrite !Hc. now rewrite transition_twice.
Qed.

(** X2. With a passive sink the state after any list of actions is the
    one the operations called by the caller lead to through the transition
    table: deliveries and rewritings of the sink play no part. *)
Theorem state_follows_commands (depth : nat) (acts : list Action)
        (w : World) :
  passive ->
  exists w',
    run depth acts w = Some w' /\
    state w' =
    fold_left (fun st c => next_state c st) (commands_of acts) (state w).
Proof.
  intro Hp. rewrite (run_passive depth acts w Hp).
  eexists; split; [ reflexivity | ].
  revert w; induction acts as [| a acts IH]; intro w; simpl;
    [ reflexivity | ].
  rewrite IH. destruct a as [c | n | r o]; simpl; try reflexivity.
  now rewrite state_transition.
Qed.

(** X3. With a passive sink a stopped controller stays as it is until
    [start] is called: whatever else is called or delivered, the state is
    [stopped], no subscription is asked for, cancelled or stored, and no
    value reaches the sink. *)
Theorem stopped_until_start (depth : nat) (acts : list Action) (w : World) :
  passive ->
  state w = stopped ->
  forallb (fun a => negb (is_start a)) acts = true ->
  exists w',
    run depth acts w = Some w' /\
    state w' = stopped /\
    created w' = created w /\
    sourceSubscription w' = sourceSubscription w /\
    (forall s, subscribes s (trace w') = subscribes s (trace w)) /\
    (forall s, cancels s (trace w') = cancels s (trace w)) /\
    next_calls (trace w') = next_calls (trace w).
Proof.
  intros Hp Hst Hacts. rewrite (run_passive depth acts w Hp).
  eexists; split; [ reflexivity | ].
  revert w Hst; induction acts as [| a acts IH]; intros w Hst; simpl.
  - repeat split; auto.
  - simpl in Hacts. apply andb_prop in Hacts as [Ha Hacts].
    assert (Hw : state (effect_of a w) = stopped /\
                 created (effect_of a w) = created w /\
                 sourceSubscription (effect_of a w) = sourceSubscription w /\
                 (forall s, subscribes s (trace (effect_of a w)) =
                            subscribes s (trace w)) /\
                 (forall s, cancels s (trace (effect_of a w)) =
                            cancels s (trace w)) /\
                 next_calls (trace (effect_of a w)) = next_calls (trace w)).
    { destruct a as [c | n | r o];
        cbn [effect_of log state created sourceSubscription trace].
      - destruct c; try discriminate Ha;
          unfold transition; rewrite Hst; repeat split; auto.
      - rewrite Hst. repeat split; auto; intros.
        + now rewrite subscribes_app, subscribes_relay_calls, Nat.add_0_r.
        + now rewrite cancels_app, cancels_relay_calls, Nat.add_0_r.
        + rewrite next_calls_app, next_calls_gated, app_nil_r;
            [ reflexivity | discriminate ].
      - repeat split; auto. }
    destruct Hw as (H1 & H2 & H3 & H4 & H5 & H6).
    destruct (IH Hacts (effect_of a w) H1) as (I1' & I2 & I3 & I4 & I5 & I6).
    repeat split; congruence.
Qed.

Lemma run_app (depth : nat) (acts acts' : list Action) (w : World) :
  run depth (acts ++ acts') w =
  match run depth acts w with
  | Some w' => run depth acts' w'
  | None => None
  end.
Proof.
  revert w; induction acts as [| a acts IH]; intro w; simpl;
    [ reflexivity | ].
  destruct (step depth w a); [ apply IH | reflexivity ].
Qed.

(** Whatever the sink callbacks do, when pausing a running controller and
    resuming it returns, the old subscription has been cancelled, once, and
    the stored one is a new one. *)
Lemma resume_stores_another (depth : nat) (h : Heap) (acts : list Action)
      (s : Subscription) (w w' : World) :
  reached depth h acts = Some w ->
  state w = running ->
  sourceSubscription w = Some s ->
  run depth [Call Pause; Call Resume] w = Some w' ->
  sourceSubscription w' = Some (created w) /\
  s < created w /\
  cancels s (trace w') = 1.
Proof.
  intros Hr Hst Hs Hrun.
  assert (HL : Ledger w)
    by (eapply Ledger_run; [ exact Hr | apply Ledger_created ]).
  assert (HL' : Ledger w') by (eapply Ledger_run; eassumption).
  simpl in Hrun. unfold exec in Hrun.
  rewrite pause_eq, Hst in Hrun.
  rewrite resume_eq in Hrun; simpl in Hrun.
  destruct (subscribe (pausable depth)
                      (with_state running (leave_running paused w)))
    as [[[] w1] |] eqn:Hsub; [ | discriminate ].
  injection Hrun as <-.
  split; [ | split ].
  - eapply subscribe_stores in Hsub. exact Hsub.
  - now apply (stored_known HL).
  - pose proof (cancelled_once HL' s) as Hle.
    eapply subscribe_trace in Hsub; [ | apply evolving_pausable ].
    destruct Hsub as [es Ht]. rewrite Ht in *. simpl in *.
    rewrite Hs in *. rewrite !cancels_app in *. simpl in *.
    rewrite Nat.eqb_refl in *. pose proof (stored_live HL Hs) as Hz. lia.
Qed.

(** X4. With a calm sink, pausing a running controller and resuming it
    always returns and replaces the subscription: the controller is
    [running] again, the old subscription has been cancelled, once, and the
    stored one is a new one. *)
Theorem resume_is_fresh (depth : nat) (h : Heap) (acts : list Action)
        (s : Subscription) (w : World) :
  calm ->
  reached depth h acts = Some w ->
  state w = running ->
  sourceSubscription w = Some s ->
  exists w',
    run depth [Call Pause; Call Resume] w = Some w' /\
    state w' = running /\
    sourceSubscription w' = Some (created w) /\
    s < created w /\
    cancels s (trace w') = 1.
Proof.
  intros Hc Hr Hst Hs.
  assert (Hrun : run depth [Call Pause; Call Resume] w =
                 Some (transition Resume (transition Pause w))).
  { cbn [run step]. unfold exec.
    rewrite (command_calm (pausable depth) Pause w Hc).
    now rewrite (command_calm (pausable depth) Resume _ Hc). }
  exists (transition Resume (transition Pause w)).
  split; [ exact Hrun | split ].
  - unfold transition at 2. rewrite Hst. reflexivity.
  - eapply resume_stores_another; eassumption.
Qed.

(** ** Calm sinks: every subscription is accounted for *)

Lemma step_calm_effect (depth : nat) (a : Action) (w : World) :
  calm -> step (S depth) w a = Some (calm_effect_of a w).
Proof.
  intro Hc. destruct a as [c | n | r o]; simpl; unfold exec.
  - now rewrite (command_calm _ c w Hc).
  - rewrite notify_contract. unfold relay_resolved, bind; simpl.
    destruct (relay_target (state w) (normalize (heap w)) n) as [f |];
      [ | reflexivity ].
    unfold invoke, bind; simpl.
    now rewrite (for_each_pausable_calm depth _ _ Hc).
  - reflexivity.
Qed.

Lemma Tidy_created (h : Heap) : Tidy (createPausable h).
Proof.
  constructor; simpl; intros.
  - unfold I1; simpl. split; [ intro H; now elim H | discriminate ].
  - discriminate.
  - lia.
  - lia.
  - auto.
Qed.

Lemma Tidy_enter (w : World) :
  state w <> running -> Tidy w -> Tidy (enter_running w).
Proof.
  intros Hst [H1 Hs Hc Ho Ha].
  assert (Hnone : sourceSubscription w = None).
  { destruct (sourceSubscription w) eqn:E; [ | reflexivity ].
    elim Hst. apply H1. rewrite E. discriminate. }
  assert (Hcan : forall s,
             cancels s (trace (enter_running w)) = cancels s (trace w)).
  { intro s; simpl. rewrite cancels_app; simpl.
    rewrite cancels_relay_calls. lia. }
  assert (Hsub : forall s,
             subscribes s (trace (enter_running w)) =
             subscribes s (trace w) + (if Nat.eqb (created w) s then 1 else 0)).
  { intro s; simpl. rewrite subscribes_app; simpl.
    rewrite subscribes_relay_calls. lia. }
  constructor; intros; rewrite ?Hcan, ?Hsub;
    cbn [sourceSubscription created state enter_running] in *.
  - unfold I1; simpl. split; [ reflexivity | discriminate ].
  - injection H as <-. split; [ lia | ]. apply Ha. lia.
  - apply Hc; [ | rewrite Hnone; discriminate ].
    assert (s <> created w) by (intro E; apply H0; now rewrite E). lia.
  - destruct (Nat.eqb_spec (created w) s) as [<- | Hne].
    + destruct (Ha (created w)) as [_ ->]; lia.
    + rewrite Ho; lia.
  - destruct (Ha s) as [-> ->]; [ lia | ].
    destruct (Nat.eqb_spec (created w) s); [ lia | auto ].
Qed.

Lemma Tidy_leave (st : State) (w : World) :
  st <> running -> Tidy w -> Tidy (leave_running st w).
Proof.
  intros Hst [H1 Hs Hc Ho Ha].
  assert (Hsub : forall s,
             subscribes s (trace (leave_running st w)) =
             subscribes s (trace w)).
  { intro s; simpl. rewrite subscribes_app.
    destruct (sourceSubscription w); simpl; lia. }
  constructor; intros; rewrite ?Hsub;
    cbn [sourceSubscription created state leave_running trace] in *.
  - unfold I1; simpl. split; [ intro H; now elim H | intro H; now elim Hst ].
  - discriminate.
  - rewrite cancels_app.
    destruct (sourceSubscription w) as [s0 |] eqn:E; simpl.
    + destruct (Nat.eqb_spec s0 s) as [-> | Hne].
      * destruct (Hs s) as [_ ->]; [ first [ exact E | reflexivity ] | ].
        reflexivity.
      * rewrite Hc; [ reflexivity | assumption | rewrite ?E; congruence ].
    + rewrite Hc; [ reflexivity | assumption | rewrite ?E; discriminate ].
  - now apply Ho.
  - destruct (Ha s H) as [Hz Hz']. split; [ | exact Hz' ].
    rewrite cancels_app, Hz.
    destruct (sourceSubscription w) as [s0 |] eqn:E; simpl; [ | reflexivity ].
    destruct (Nat.eqb_spec s0 s) as [-> | Hne]; [ | reflexivity ].
    destruct (Hs s); [ first [ exact E | reflexivity ] | lia ].
Qed.

Lemma Tidy_transition (c : Command) (w : World) :
  Tidy w -> Tidy (transition c w).
Proof.
  intro HT. unfold transition.
  destruct c; destruct (state w) eqn:Hst; auto;
    try (apply Tidy_enter; [ rewrite Hst; discriminate | exact HT ]);
    (apply Tidy_leave; [ discriminate | exact HT ]).
Qed.

Lemma Tidy_transitions (cs : list Command) (w : World) :
  Tidy w -> Tidy (fold_left (fun w c => transition c w) cs w).
Proof.
  revert w; induction cs as [| c cs IH]; intros w H; simpl; auto.
  now apply IH, Tidy_transition.
Qed.

Lemma Tidy_call (f : Fn) (n : Notification) (w : World) :
  Tidy w -> Tidy (log [call_of f n] w).
Proof.
  intros [H1 Hs Hc Ho Ha].
  assert (Hcan : forall s,
             cancels s (trace w ++ [call_of f n]) = cancels s (trace w)).
  { intro s. rewrite cancels_app. destruct n; simpl; lia. }
  assert (Hsub : forall s,
             subscribes s (trace w ++ [call_of f n]) =
             subscribes s (trace w)).
  { intro s. rewrite subscribes_app. destruct n; simpl; lia. }
  constructor; simpl; intros; rewrite ?Hcan, ?Hsub; auto.
Qed.

Lemma Tidy_calm_effect (a : Action) (w : World) :
  Tidy w -> Tidy (calm_effect_of a w).
Proof.
  intro HT. destruct a as [c | n | r o]; simpl.
  - now apply Tidy_transition.
  - destruct (relay_target (state w) (normalize (heap w)) n); auto.
    now apply Tidy_transitions, Tidy_call.
  - destruct HT as [H1 Hs Hc Ho Ha]. constructor; simpl; auto.
Qed.

(** X5. With a calm sink, at every point: every subscription the source
    was asked for was asked for once; the stored one has not been
    cancelled; every other one has been cancelled exactly once; and nothing
    else was ever cancelled.  Outside [running], in particular after
    [stop], every subscription ever created has been cancelled. *)
Theorem no_subscription_leaks (depth : nat) (h : Heap) (acts : list Action) :
  calm ->
  exists w,
    reached (S depth) h acts = Some w /\
    (forall s,
       subscribes s (trace w) <= 1 /\
       cancels s (trace w) =
       match sourceSubscription w with
       | Some s' => if Nat.eqb s' s then 0 else subscribes s (trace w)
       | None => subscribes s (trace w)
       end) /\
    (state w <> running ->
     forall s, cancels s (trace w) = subscribes s (trace w)).
Proof.
  intro Hc.
  assert (H : forall acts w0,
             Tidy w0 -> exists w, run (S depth) acts w0 = Some w /\ Tidy w).
  { clear acts. induction acts as [| a acts IH]; intros w0 HT; simpl.
    - now exists w0.
    - rewrite (step_calm_effect depth a w0 Hc).
      now apply IH, Tidy_calm_effect. }
  destruct (H acts _ (Tidy_created h)) as (w & Hr & [H1 Hs Hcl Ho Ha]).
  assert (Hall : forall s,
             subscribes s (trace w) <= 1 /\
             cancels s (trace w) =
             match sourceSubscription w with
             | Some s' => if Nat.eqb s' s then 0 else subscribes s (trace w)
             | None => subscribes s (trace w)
             end).
  { intro s. destruct (Nat.lt_ge_cases s (created w)) as [Hlt | Hge].
    - rewrite (Ho s Hlt). split; [ lia | ].
      destruct (sourceSubscription w) as [s' |] eqn:E.
      + destruct (Nat.eqb_spec s' s) as [-> | Hne].
        * destruct (Hs s) as [_ Hz]; [ first [ exact E | reflexivity ] | ].
          exact Hz.
        * apply Hcl; [ assumption | rewrite ?E; congruence ].
      + apply Hcl; [ assumption | rewrite ?E; discriminate ].
    - destruct (Ha s Hge) as [-> ->]. split; [ lia | ].
      destruct (sourceSubscription w) as [s' |] eqn:E; [ | reflexivity ].
      destruct (Nat.eqb_spec s' s); reflexivity. }
  exists w. split; [ exact Hr | split; [ exact Hall | ] ].
  intros Hst s. destruct (Hall s) as [_ ->].
  destruct (sourceSubscription w) eqn:E; [ | reflexivity ].
  elim Hst. apply H1. rewrite E. discriminate.
Qed.

(** ** Cold and hot sources *)

Lemma sink_calls_enter (w : World) :
  sink_calls (trace (enter_running w)) =
  sink_calls (trace w) ++
  relay_calls running (normalize (heap w)) (source (created w)).
Proof.
  simpl. rewrite sink_calls_app; simpl. now rewrite sink_calls_relay_calls.
Qed.

Lemma sink_calls_leave (st : State) (w : World) :
  sink_calls (trace (leave_running st w)) = sink_calls (trace w).
Proof.
  simpl. rewrite sink_calls_app.
  destruct (sourceSubscription w); simpl; now rewrite app_nil_r.
Qed.

(** What the sink is called with on one action of a passive run over a
    cold source depends on the state and on the heap only. *)
Lemma effect_alike (a : Action) (w1 w2 : World) :
  cold -> alike w1 w2 ->
  alike (effect_of a w1) (effect_of a w2) /\
  exists delta,
    sink_calls (trace (effect_of a w1)) = sink_calls (trace w1) ++ delta /\
    sink_calls (trace (effect_of a w2)) = sink_calls (trace w2) ++ delta.
Proof.
  intros Hcold [Hst Hh]. unfold alike.
  destruct a as [c | n | r o]; cbn [effect_of].
  - rewrite !state_transition, Hst. split.
    + split; [ reflexivity | ].
      unfold transition. rewrite Hst.
      destruct c; destruct (state w2); simpl; exact Hh.
    + unfold transition. rewrite Hst.
      destruct c; destruct (state w2);
        rewrite ?sink_calls_enter, ?sink_calls_leave;
        try (exists []; now rewrite !app_nil_r);
        rewrite Hh, (Hcold (created w1)), (Hcold (created w2));
        eexists; split; reflexivity.
  - unfold log; cbn [state heap trace]. rewrite Hst, Hh.
    split; [ split; reflexivity | ].
    rewrite !sink_calls_app, !sink_calls_relay_calls.
    eexists; split; reflexivity.
  - simpl. rewrite Hh. split; [ split; [ exact Hst | reflexivity ] | ].
    exists []; now rewrite !app_nil_r.
Qed.

Lemma run_alike (acts : list Action) (w1 w2 : World) :
  cold -> alike w1 w2 ->
  alike (fold_left (fun w a => effect_of a w) acts w1)
        (fold_left (fun w a => effect_of a w) acts w2) /\
  exists delta,
    sink_calls (trace (fold_left (fun w a => effect_of a w) acts w1)) =
    sink_calls (trace w1) ++ delta /\
    sink_calls (trace (fold_left (fun w a => effect_of a w) acts w2)) =
    sink_calls (trace w2) ++ delta.
Proof.
  intro Hcold. revert w1 w2; induction acts as [| a acts IH];
    intros w1 w2 Hal; simpl.
  - split; [ exact Hal | ]. exists []; now rewrite !app_nil_r.
  - destruct (effect_alike a Hcold Hal) as (Hal' & d1 & Hd1 & Hd2).
    destruct (IH _ _ Hal') as (Hal'' & d2 & He1 & He2).
    split; [ exact Hal'' | ]. exists (d1 ++ d2).
    now rewrite He1, He2, Hd1, Hd2, !app_assoc.
Qed.

(** X6. A stopped controller is as good as new.  With a passive sink and a
    cold source, whatever happened before, a controller that is [stopped]
    goes through any list of actions in the states a newly created
    controller goes through, and the sink is called with exactly what it
    would be called with by the new one. *)
Theorem restart_like_new (depth : nat) (h : Heap) (acts : list Action)
        (w : World) :
  passive -> cold ->
  state w = stopped -> heap w = h ->
  exists w' w0,
    run depth acts w = Some w' /\
    reached depth h acts = Some w0 /\
    state w' = state w0 /\
    sink_calls (trace w') = sink_calls (trace w) ++ sink_calls (trace w0).
Proof.
  intros Hp Hcold Hst Hh. unfold reached.
  rewrite !(run_passive depth acts _ Hp).
  do 2 eexists. split; [ reflexivity | split; [ reflexivity | ] ].
  destruct (@run_alike acts w (createPausable h) Hcold)
    as ([Hs' _] & d & Hd1 & Hd2).
  { split; [ exact Hst | exact Hh ]. }
  split; [ exact Hs' | ].
  simpl in Hd2. now rewrite Hd1, Hd2.
Qed.

(** X7. On a cold source [resume] replays what [start] played: with a
    calm sink, [start] from a stopped controller and [resume] from a paused
    one over the same sink call the sink with the same notifications, those
    the source delivers to any new subscription. *)
Theorem resume_replays_cold_source (depth : nat) (w1 w2 : World) :
  calm -> cold ->
  state w1 = stopped -> state w2 = paused -> heap w1 = heap w2 ->
  exists w1' w2',
    exec (start (pausable depth)) w1 = Some w1' /\
    exec (resume (pausable depth)) w2 = Some w2' /\
    sink_calls (trace w1') =
      sink_calls (trace w1) ++
      relay_calls running (normalize (heap w1)) (source 0) /\
    sink_calls (trace w2') =
      sink_calls (trace w2) ++
      relay_calls running (normalize (heap w1)) (source 0).
Proof.
  intros Hc Hcold Hs1 Hs2 Hh.
  exists (enter_running w1), (enter_running w2). unfold exec.
  rewrite start_eq, resume_eq, Hs1, Hs2, !(enter_calm _ _ Hc).
  rewrite !sink_calls_enter, Hh, (Hcold (created w1)), (Hcold (created w2)).
  auto.
Qed.

(** X8. Values delivered while the controller is paused are lost, not
    kept for later: when the source delivers nothing by itself to a new
    subscription (a hot source), [resume] after any number of such values
    only asks the source for a subscription and stores it; the sink is not
    called, whatever its callbacks would do. *)
Theorem paused_values_are_lost (depth : nat) (vs : list T) (w : World) :
  state w = paused ->
  source (created w) = [] ->
  run depth (map (fun v => Deliver (NextN v)) vs ++ [Call Resume]) w =
  Some (mkWorld running (Some (created w)) (S (created w)) (heap w)
                (trace w ++ [Subscribe (created w)])).
Proof.
  intros Hst Hsrc.
  rewrite run_app, run_values_gated by (rewrite Hst; discriminate).
  simpl. unfold exec, command, ACTIONS. rewrite resume_eq, Hst.
  unfold subscribe, source_subscribe, bind; simpl. now rewrite Hsrc.
Qed.

(** ** A controller without a sink *)

Lemma notify_no_sink (self : Command -> M unit) (n : Notification)
      (w : World) :
  observer = None -> notify self n w = Some (tt, w).
Proof.
  intro Ho. rewrite notify_contract.
  unfold relay_resolved, normalize, bind; simpl. rewrite Ho.
  destruct n; simpl; [ destruct (state w) | | ]; reflexivity.
Qed.

Lemma for_each_notify_no_sink (self : Command -> M unit)
      (ns : list Notification) (w : World) :
  observer = None -> for_each (notify self) ns w = Some (tt, w).
Proof.
  intro Ho. induction ns as [| n ns IH]; simpl; [ reflexivity | ].
  unfold bind. now rewrite notify_no_sink.
Qed.

Lemma step_no_sink (depth : nat) (a : Action) (w : World) :
  observer = None ->
  exists w', step depth w a = Some w' /\
             sink_calls (trace w') = sink_calls (trace w).
Proof.
  intro Ho.
  assert (Hsub : forall w0,
             subscribe (pausable depth) w0 =
             Some (tt, mkWorld (state w0) (Some (created w0))
                               (S (created w0)) (heap w0)
                               (trace w0 ++ [Subscribe (created w0)]))).
  { intro w0. unfold subscribe, source_subscribe, bind; simpl.
    now rewrite for_each_notify_no_sink. }
  destruct a as [c | n | r o]; simpl; unfold exec.
  - destruct c; unfold command, ACTIONS.
    + rewrite start_eq. destruct (state w);
        try (eexists; split; reflexivity).
      rewrite Hsub. eexists; split; [ reflexivity | ].
      simpl. rewrite sink_calls_app; simpl. now rewrite app_nil_r.
    + rewrite stop_transition. eexists; split; [ reflexivity | ].
      unfold transition. destruct (state w);
        rewrite ?sink_calls_leave; reflexivity.
    + rewrite pause_transition. eexists; split; [ reflexivity | ].
      unfold transition. destruct (state w);
        rewrite ?sink_calls_leave; reflexivity.
    + rewrite resume_eq. destruct (state w);
        try (eexists; split; reflexivity).
      rewrite Hsub. eexists; split; [ reflexivity | ].
      simpl. rewrite sink_calls_app; simpl. now rewrite app_nil_r.
  - rewrite notify_no_sink by assumption. eexists; split; reflexivity.
  - eexists; split; reflexivity.
Qed.

(** X9. A controller created without a sink calls nothing but the source:
    whatever is called and delivered, every action returns, at any bound
    on nesting, and the trace holds requests for subscriptions and
    cancellations only. *)
Theorem no_sink_no_calls (depth : nat) (h : Heap) (acts : list Action) :
  observer = None ->
  exists w, reached depth h acts = Some w /\ sink_calls (trace w) = [].
Proof.
  intro Ho. unfold reached.
  assert (H : forall acts w0,
             exists w, run depth acts w0 = Some w /\
                       sink_calls (trace w) = sink_calls (trace w0)).
  { clear acts. induction acts as [| a acts IH]; intro w0; simpl.
    - now exists w0.
    - destruct (step_no_sink depth a w0 Ho) as (w1 & -> & H1).
      destruct (IH w1) as (w & Hr & Hw). exists w. split; congruence. }
  destruct (H acts (createPausable h)) as (w & Hr & Hw). now exists w.
Qed.

End Pausable.

Arguments NextN {T Err} value.
Arguments ErrorN {T Err} err.
Arguments CompleteN {T Err}.
Arguments Call {T Err} action.
Arguments Deliver {T Err} n.
Arguments Mutate {T Err} r o.
Arguments Subscribe {T Err} s.
Arguments Unsubscribe {T Err} s.
Arguments CallNext {T Err} f value.
Arguments CallError {T Err} f err.
Arguments CallComplete {T Err} f.

(** ** Sinks that are callables *)

(** C10. When the sink is a callable [f], it is the value channel and
    there is no other: an error or a completion delivered to the relay
    changes nothing and calls nothing.  For any sink, the relay does
    something on an error (on a completion) only if the sink is an object
    that carries an [error] (a [complete]) handler at that moment. *)
Theorem callable_sink_drops_error_and_completion
        (T Err : Type) (reaction : Fn -> Notification T Err -> list Command)
        (self : Command -> M T Err unit) (f : Fn)
        (observer : option SubArgs) (w : World T Err) :
  normalize (Some (SubFn f)) (heap w) = mkHandlers (Some f) None None /\
  (forall e : Err,
     relay_error (Some (SubFn f)) reaction self e w = Some (tt, w)) /\
  relay_complete (Some (SubFn f)) reaction self w = Some (tt, w) /\
  (forall e : Err,
     relay_error observer reaction self e w <> Some (tt, w) ->
     exists r g, observer = Some (SubObj r) /\ error (heap w r) = Some g) /\
  (relay_complete observer reaction self w <> Some (tt, w) ->
   exists r g, observer = Some (SubObj r) /\ complete (heap w r) = Some g).
Proof.
  split; [ reflexivity | split; [ reflexivity | split; [ reflexivity | ] ] ].
  split.
  - intros e Hne. unfold relay_error in Hne.
    destruct observer as [[g | r] |]; try (now elim Hne).
    unfold bind in Hne; simpl in Hne.
    destruct (error (heap w r)) as [g |] eqn:Hg; [ | now elim Hne ].
    now exists r, g.
  - intros Hne. unfold relay_complete in Hne.
    destruct observer as [[g | r] |]; try (now elim Hne).
    unfold bind in Hne; simpl in Hne.
    destruct (complete (heap w r)) as [g |] eqn:Hg; [ | now elim Hne ].
    now exists r, g.
Qed.

(** ** Scenarios *)

Module Scenarios.

(** Values and errors are numbers. *)
Definition W := World nat nat.

(** A [Subject]: subscribing to it delivers nothing by itself. *)
Definition subject : Observable nat nat := fun _ => [].

(** [of(1, 2, 3)]: every subscription is served the three values and the
    completion while it is being created. *)
Definition of_1_2_3 : Observable nat nat :=
  fun _ => [NextN 1; NextN 2; NextN 3; CompleteN].

(** [new BehaviorSubject(1)]: every subscription is served the current
    value while it is being created, and stays open. *)
Definition behaviorSubject : Observable nat nat := fun _ => [NextN 1].

(** The callbacks of the sinks below. *)
Definition nextFn : Fn := 10.
Definition errorFn : Fn := 11.
Definition completeFn : Fn := 12.

(** [mockObserver] and an object without any handler; the heaps below
    hold one of them at every reference. *)
Definition mockObserver : PartialObserver :=
  mkObserver (Some nextFn) (Some errorFn) (Some completeFn).

Definition emptyObserver : PartialObserver := mkObserver None None None.

Definition heap_mock : Heap := fun _ => mockObserver.
Definition heap_empty : Heap := fun _ => emptyObserver.

Definition obj : option SubArgs := Some (SubObj 0).
Definition fn : option SubArgs := Some (SubFn nextFn).

(** Callbacks that only record their argument, as [vi.fn()] does. *)
Definition quiet : Fn -> Notification nat nat -> list Command :=
  fun _ _ => [].

(** [value => pausable.pause()] and [value => pausable.stop()]. *)
Definition pausing : Fn -> Notification nat nat -> list Command :=
  fun _ n => match n with NextN _ => [Pause] | _ => [] end.

Definition stopping : Fn -> Notification nat nat -> list Command :=
  fun _ n => match n with NextN _ => [Stop] | _ => [] end.

Lemma quiet_passive : passive quiet.
Proof. intros f n; reflexivity. Defined.

Lemma quiet_calm (source : Observable nat nat) : calm source quiet.
Proof. intros s n f _; reflexivity. Defined.

(** A [Subject] delivers nothing while a subscription is being created. *)
Lemma subject_calm (reaction : Fn -> Notification nat nat -> list Command) :
  calm subject reaction.
Proof. intros s n f Hin; destruct Hin. Defined.

(** The trace of a controller over [source] and [observer] after [acts],
    the callbacks being quiet. *)
Definition trace_of (source : Observable nat nat) (observer : option SubArgs)
           (h : Heap) (acts : list (Action nat nat))
  : option (list (Effect nat nat)) :=
  option_map (@trace nat nat) (reached source observer quiet 0 h acts).

(** index.test.ts, "should not emit values initially (stopped state)". *)
Example initial_state :
  trace_of subject obj heap_mock [Deliver (NextN 1); Deliver (NextN 2)] =
  Some [].
Proof. reflexivity. Qed.

(** index.test.ts, "should ignore start() when already running". *)
Example start_twice :
  trace_of subject obj heap_mock
    [Call Start; Deliver (NextN 1); Call Start; Deliver (NextN 2)] =
  Some [Subscribe 0; CallNext nextFn 1; CallNext nextFn 2].
Proof. reflexivity. Qed.

(** index.test.ts, "should stop emitting values after calling stop()". *)
Example stop_twice :
  trace_of subject obj heap_mock
    [Call Start; Deliver (NextN 1); Call Stop; Call Stop;
     Deliver (NextN 2); Deliver (NextN 3)] =
  Some [Subscribe 0; CallNext nextFn 1; Unsubscribe 0].
Proof. reflexivity. Qed.

(** index.test.ts, "should handle start -> pause -> resume -> stop ->
    start". *)
Example complex_transitions :
  trace_of subject obj heap_mock
    [Call Start; Deliver (NextN 1); Call Pause; Deliver (NextN 2);
     Call Resume; Deliver (NextN 3); Call Stop; Deliver (NextN 4);
     Call Start; Deliver (NextN 5)] =
  Some [Subscribe 0; CallNext nextFn 1; Unsubscribe 0;
        Subscribe 1; CallNext nextFn 3; Unsubscribe 1;
        Subscribe 2; CallNext nextFn 5].
Proof. reflexivity. Qed.

(** index.test.ts, "should propagate errors to observer" and "should work
    with full observer". *)
Example error_and_completion :
  trace_of subject obj heap_mock [Call Start; Deliver (ErrorN 99)] =
  Some [Subscribe 0; CallError errorFn 99] /\
  trace_of subject obj heap_mock
    [Call Start; Deliver (NextN 1); Deliver CompleteN] =
  Some [Subscribe 0; CallNext nextFn 1; CallComplete completeFn].
Proof. split; reflexivity. Qed.

(** A source that delivers while the subscription is being created, and a
    cold restart on [resume]. *)
Example synchronous_source :
  trace_of of_1_2_3 fn heap_empty [Call Start; Call Pause; Call Resume] =
  Some [Subscribe 0;
        CallNext nextFn 1; CallNext nextFn 2; CallNext nextFn 3;
        Unsubscribe 0;
        Subscribe 1;
        CallNext nextFn 1; CallNext nextFn 2; CallNext nextFn 3].
Proof. reflexivity. Qed.

(** [stop] after [pause], and [stop] again: one cancellation. *)
Example stop_after_pause :
  trace_of subject obj heap_mock [Call Start; Call Pause; Call Stop; Call Stop]
  = Some [Subscribe 0; Unsubscribe 0].
Proof. reflexivity. Qed.

(** *** A sink that calls back while the subscription is being created *)

(** [const p = createPausable(new BehaviorSubject(1), value => p.pause());
    p.start()].  The current value is handed to the callback, which calls
    [pause]: the state becomes [paused] and nothing is cancelled, no
    subscription being stored yet; then [subscribe] stores the subscription
    the source returns. *)
Definition w_leaked : W :=
  mkWorld paused (Some 0) 1 heap_empty [Subscribe 0; CallNext nextFn 1].

(** C4. The claim: outside an operation call a subscription is stored if
    and only if the state is [running].  The code, at this input: after
    [start] has returned, the state is [paused] and a subscription is
    stored, one that [pause] should have cancelled and that nothing
    cancels. *)
Lemma pause_inside_start_breaks_I1 :
  reached behaviorSubject fn pausing 1 heap_empty [Call Start] =
    Some w_leaked /\
  state w_leaked = paused /\
  sourceSubscription w_leaked = Some 0 /\
  ~ I1 w_leaked.
Proof.
  split; [ reflexivity | split; [ reflexivity | split; [ reflexivity | ] ] ].
  unfold I1; simpl. intros [H _].
  assert (Habs : paused = running) by (apply H; discriminate).
  discriminate Habs.
Qed.

(** The subscription stored in [paused] is cancelled only by the [pause]
    the callback calls inside the next [resume], which in turn leaves the
    new one stored; and with [value => p.stop()], [start] ends in [stopped]
    with a subscription that a later [stop] does not cancel. *)
Example pause_inside_resume :
  option_map (@trace nat nat)
    (reached behaviorSubject fn pausing 1 heap_empty
             [Call Start; Call Resume]) =
  Some [Subscribe 0; CallNext nextFn 1;
        Subscribe 1; CallNext nextFn 1; Unsubscribe 0].
Proof. reflexivity. Qed.

Example stop_inside_start :
  reached of_1_2_3 fn stopping 1 heap_empty [Call Start; Call Stop] =
  Some (mkWorld stopped (Some 0) 1 heap_empty
                [Subscribe 0; CallNext nextFn 1]).
Proof. reflexivity. Qed.

(** A callback that calls [pause] on values delivered later, by a
    [Subject], keeps the state and the stored subscription in step. *)
Lemma subscription_iff_running_witness :
  calm subject pausing /\
  exists w,
    reached subject fn pausing 1 heap_empty
            [Call Start; Deliver (NextN 1); Call Resume; Deliver (NextN 2)] =
      Some w /\
    I1 w /\
    match state w with
    | running =>
        exists s, sourceSubscription w = Some s /\
                  s < created w /\ cancels s (trace w) = 0
    | paused | stopped => sourceSubscription w = None
    end.
Proof.
  split; [ exact (subject_calm pausing) | ].
  exact (subscription_iff_running fn 0 heap_empty
           [Call Start; Deliver (NextN 1); Call Resume; Deliver (NextN 2)]
           (subject_calm pausing)).
Defined.

Example pause_on_later_values :
  reached subject fn pausing 1 heap_empty
          [Call Start; Deliver (NextN 1); Call Resume; Deliver (NextN 2)] =
  Some (mkWorld paused None 2 heap_empty
                [Subscribe 0; CallNext nextFn 1; Unsubscribe 0;
                 Subscribe 1; CallNext nextFn 2; Unsubscribe 1]).
Proof. reflexivity. Qed.

(** *** Worlds in each of the three states *)

Definition w_stopped : W := createPausable nat nat heap_mock.
Definition w_running : W := mkWorld running (Some 0) 1 heap_mock [Subscribe 0].
Definition w_paused : W :=
  mkWorld paused None 1 heap_mock [Subscribe 0; Unsubscribe 0].

Example worlds_reached :
  reached subject obj quiet 0 heap_mock [Call Start] = Some w_running /\
  reached subject obj quiet 0 heap_mock [Call Start; Call Pause] =
  Some w_paused.
Proof. split; reflexivity. Qed.

Lemma transition_table_witness :
  calm of_1_2_3 quiet /\
  exec (start of_1_2_3 obj quiet (pausable of_1_2_3 obj quiet 0)) w_stopped =
    Some (enter_running of_1_2_3 obj w_stopped) /\
  exec (resume of_1_2_3 obj quiet (pausable of_1_2_3 obj quiet 0)) w_paused =
    Some (enter_running of_1_2_3 obj w_paused) /\
  (sourceSubscription (enter_running of_1_2_3 obj w_stopped) =
     Some (created w_stopped) /\
   exists es,
     trace (enter_running of_1_2_3 obj w_stopped) =
     trace w_stopped ++ Subscribe (created w_stopped) :: es).
Proof.
  pose proof (transition_table of_1_2_3 obj quiet 0 w_stopped)
    as [(_ & Hany & Hstart) _].
  pose proof (transition_table of_1_2_3 obj quiet 0 w_paused)
    as (_ & _ & (_ & _ & Hresume) & _).
  split; [ exact (quiet_calm of_1_2_3) | ].
  split; [ exact (Hstart (quiet_calm of_1_2_3)) | ].
  split; [ exact (Hresume (quiet_calm of_1_2_3)) | ].
  exact (Hany _ (Hstart (quiet_calm of_1_2_3))).
Defined.

Lemma gating_witness :
  state w_paused <> running /\
  passive quiet /\
  (forall v,
     exec (relay_next obj quiet (pausable subject obj quiet 0) v) w_paused =
     Some w_paused) /\
  (forall vs,
     run subject obj quiet 0 (map (fun v => Deliver (NextN v)) vs) w_paused =
     Some w_paused) /\
  exists w',
    run subject obj quiet 0 (map Deliver [NextN 2; ErrorN 9]) w_paused =
    Some w' /\
    next_calls (trace w') = next_calls (trace w_paused) /\
    state w' = state w_paused.
Proof.
  assert (Hst : state w_paused <> running) by (simpl; discriminate).
  pose proof (gating subject obj quiet 0 w_paused [NextN 2; ErrorN 9] Hst)
    as (Hv & Hvs & Hns).
  split; [ exact Hst | ].
  split; [ exact quiet_passive | ].
  split; [ exact Hv | ].
  split; [ exact Hvs | exact (Hns quiet_passive) ].
Defined.

Lemma forwarding_witness :
  (onValue (normalize obj (heap w_running)) = Some nextFn /\
   state w_running = running /\
   relay_next obj pausing (pausable subject obj pausing 1) 5 w_running =
   invoke pausing (pausable subject obj pausing 1) nextFn (NextN 5)
          w_running /\
   exec (relay_next obj quiet (pausable subject obj quiet 0) 5) w_running =
   Some (log [CallNext nextFn 5] w_running)) /\
  (state w_stopped = stopped /\
   exists w',
     exec (start of_1_2_3 obj quiet (pausable of_1_2_3 obj quiet 0))
          w_stopped = Some w' /\
     state w' = running /\
     next_calls (trace w') =
     next_calls (trace w_stopped) ++
     map (pair nextFn) (values_of (of_1_2_3 (created w_stopped)))) /\
  (state w_paused = paused /\
   exists w',
     exec (resume of_1_2_3 obj quiet (pausable of_1_2_3 obj quiet 0))
          w_paused = Some w' /\
     state w' = running /\
     next_calls (trace w') =
     next_calls (trace w_paused) ++
     map (pair nextFn) (values_of (of_1_2_3 (created w_paused)))).
Proof.
  split; [ | split ].
  - split; [ reflexivity | split; [ reflexivity | split ] ].
    + exact (proj1 (forwarding subject obj pausing 1 w_running
                               (f := nextFn) eq_refl) eq_refl 5).
    + exact (proj1 (proj1 (proj2 (forwarding subject obj quiet 0 w_running
                                             (f := nextFn) eq_refl))
                          quiet_passive eq_refl) 5).
  - split; [ reflexivity | ].
    exact (proj1 (proj2 (proj2 (forwarding of_1_2_3 obj quiet 0 w_stopped
                                           (f := nextFn) eq_refl)))
                 (quiet_calm of_1_2_3) eq_refl).
  - split; [ reflexivity | ].
    exact (proj2 (proj2 (proj2 (forwarding of_1_2_3 obj quiet 0 w_paused
                                           (f := nextFn) eq_refl)))
                 (quiet_calm of_1_2_3) eq_refl).
Defined.


Lemma completion_frame_witness :
  passive quiet /\
  exec (relay_complete obj quiet (pausable subject obj quiet 0)) w_running =
    Some (log [CallComplete completeFn] w_running) /\
  forall ns : list (Notification nat nat),
    exists w',
      run subject obj quiet 0 (map Deliver ns) w_running = Some w' /\
      state w' = state w_running /\
      sourceSubscription w' = sourceSubscription w_running.
Proof.
  split; [ exact quiet_passive | ].
  exact (proj2 (completion_frame subject obj quiet 0 w_running)
               quiet_passive).
Defined.

(** The caller rewrites another object than the sink. *)
Lemma sink_resolved_at_each_event_witness :
  reached subject obj quiet 0 heap_empty
          [Call Start; Mutate 1 mockObserver] =
    Some (mkWorld running (Some 0) 1 (heap_set heap_empty 1 mockObserver)
                  [Subscribe 0]) /\
  forallb (fun a : Action nat nat => negb (rewrites_sink obj a))
          [Call Start; Mutate 1 mockObserver] = true /\
  notify obj quiet (pausable subject obj quiet 0) (NextN 42)
         (mkWorld running (Some 0) 1 (heap_set heap_empty 1 mockObserver)
                  [Subscribe 0]) =
  relay_resolved quiet (pausable subject obj quiet 0)
                 (normalize obj heap_empty) (NextN 42)
                 (mkWorld running (Some 0) 1
                          (heap_set heap_empty 1 mockObserver)
                          [Subscribe 0]).
Proof.
  split; [ reflexivity | split; [ reflexivity | ] ].
  exact (proj2 (sink_resolved_at_each_event subject obj quiet 0 heap_empty
                  [Call Start; Mutate 1 mockObserver] (NextN 42)
                  w_stopped _) eq_refl eq_refl).
Defined.

(** C8, as stated, fails. The sink is an object without handlers when the
    controller is created; the caller gives it a [next] handler afterwards.
    The relay of the code calls that handler; a relay working from the
    record resolved at construction calls nothing. *)
Lemma sink_not_resolved_at_construction :
  reached subject obj quiet 0 heap_empty
          [Call Start; Mutate 0 mockObserver] =
    Some (mkWorld running (Some 0) 1 (heap_set heap_empty 0 mockObserver)
                  [Subscribe 0]) /\
  option_map (@trace nat nat)
    (exec (notify obj quiet (pausable subject obj quiet 0) (NextN 42))
          (mkWorld running (Some 0) 1 (heap_set heap_empty 0 mockObserver)
                   [Subscribe 0])) =
    Some [Subscribe 0; CallNext nextFn 42] /\
  option_map (@trace nat nat)
    (exec (relay_resolved quiet (pausable subject obj quiet 0)
                          (normalize obj heap_empty) (NextN 42))
          (mkWorld running (Some 0) 1 (heap_set heap_empty 0 mockObserver)
                   [Subscribe 0])) =
    Some [Subscribe 0] /\
  notify obj quiet (pausable subject obj quiet 0) (NextN 42)
         (mkWorld running (Some 0) 1 (heap_set heap_empty 0 mockObserver)
                  [Subscribe 0]) <>
  relay_resolved quiet (pausable subject obj quiet 0)
                 (normalize obj heap_empty) (NextN 42)
                 (mkWorld running (Some 0) 1
                          (heap_set heap_empty 0 mockObserver)
                          [Subscribe 0]).
Proof.
  split; [ reflexivity | split; [ reflexivity | split; [ reflexivity | ] ] ].
  intro H.
  apply (f_equal (fun o => option_map (fun p => @trace nat nat (snd p)) o))
    in H.
  discriminate H.
Qed.

(** The sink calls [pause] from inside [start] and [resume]. *)
Lemma cancelled_at_most_once_witness :
  reached of_1_2_3 fn pausing 1 heap_empty
          [Call Start; Call Resume; Call Stop] =
    Some (mkWorld stopped None 2 heap_empty
                  [Subscribe 0; CallNext nextFn 1; Subscribe 1;
                   CallNext nextFn 1; Unsubscribe 0; Unsubscribe 1]) /\
  cancels 0 [Subscribe 0; CallNext nextFn 1; Subscribe 1;
             CallNext nextFn 1; Unsubscribe 0; @Unsubscribe nat nat 1] <= 1.
Proof.
  split; [ reflexivity | ].
  exact (proj2 (cancelled_at_most_once of_1_2_3 fn pausing 1 heap_empty
                  [Call Start; Call Resume; Call Stop] 0 w_stopped _)
               eq_refl).
Defined.

Lemma callable_sink_witness :
  (relay_error obj quiet (pausable subject obj quiet 0) 99 w_running <>
     Some (tt, w_running) /\
   exists r g, obj = Some (SubObj r) /\ error (heap w_running r) = Some g) /\
  (relay_complete obj quiet (pausable subject obj quiet 0) w_running <>
     Some (tt, w_running) /\
   exists r g, obj = Some (SubObj r) /\ complete (heap w_running r) = Some g).
Proof.
  assert (He : relay_error obj quiet (pausable subject obj quiet 0) 99
                           w_running <> Some (tt, w_running)).
  { intro H.
    apply (f_equal (fun o => option_map (fun p => @trace nat nat (snd p)) o))
      in H.
    discriminate H. }
  assert (Hc : relay_complete obj quiet (pausable subject obj quiet 0)
                              w_running <> Some (tt, w_running)).
  { intro H.
    apply (f_equal (fun o => option_map (fun p => @trace nat nat (snd p)) o))
      in H.
    discriminate H. }
  pose proof (callable_sink_drops_error_and_completion
                quiet (pausable subject obj quiet 0) nextFn obj w_running)
    as (_ & _ & _ & Herr & Hcomp).
  split; split;
    [ exact He | exact (Herr 99 He) | exact Hc | exact (Hcomp Hc) ].
Defined.

End Scenarios.

(** ** Further scenarios *)

Module Further.

Import Scenarios.

Lemma of_1_2_3_cold : cold of_1_2_3.
Proof. intro s; reflexivity. Defined.

(** A controller that was started and stopped. *)
Definition w_restarted : W :=
  mkWorld stopped None 1 heap_mock
          [Subscribe 0; CallNext nextFn 1; CallNext nextFn 2;
           CallNext nextFn 3; CallComplete completeFn; Unsubscribe 0].

Example w_restarted_reached :
  reached of_1_2_3 obj quiet 0 heap_mock [Call Start; Call Stop] =
  Some w_restarted.
Proof. reflexivity. Qed.

Lemma operations_idempotent_witness :
  calm of_1_2_3 quiet /\
  run of_1_2_3 obj quiet 0 [Call Start; Call Start] w_stopped =
  run of_1_2_3 obj quiet 0 [Call Start] w_stopped /\
  run behaviorSubject fn pausing 1 [Call Pause; Call Pause] w_running =
  run behaviorSubject fn pausing 1 [Call Pause] w_running.
Proof.
  split; [ exact (quiet_calm of_1_2_3) | split ].
  - exact (@operations_idempotent nat nat of_1_2_3 obj quiet 0 Start
             w_stopped (or_intror (or_intror (quiet_calm of_1_2_3)))).
  - exact (@operations_idempotent nat nat behaviorSubject fn pausing 1 Pause
             w_running (or_introl eq_refl)).
Defined.

Lemma state_follows_commands_witness :
  passive quiet /\
  exists w',
    run subject obj quiet 0
        [Call Start; Deliver (NextN 1); Call Pause; Deliver CompleteN;
         Mutate 0 emptyObserver; Call Start; Call Resume] w_stopped =
      Some w' /\
    state w' =
    fold_left (fun st c => next_state c st)
              [Start; Pause; Start; Resume] (state w_stopped).
Proof.
  split; [ exact quiet_passive | ].
  exact (@state_follows_commands nat nat subject obj quiet 0
           [Call Start; Deliver (NextN 1); Call Pause; Deliver CompleteN;
            Mutate 0 emptyObserver; Call Start; Call Resume]
           w_stopped quiet_passive).
Defined.

Lemma stopped_until_start_witness :
  passive quiet /\
  state w_restarted = stopped /\
  forallb (fun a : Action nat nat => negb (is_start a))
          [Deliver (NextN 4); Call Resume; Deliver (ErrorN 9); Call Pause;
           Call Stop] = true /\
  exists w',
    run of_1_2_3 obj quiet 0
        [Deliver (NextN 4); Call Resume; Deliver (ErrorN 9); Call Pause;
         Call Stop] w_restarted = Some w' /\
    state w' = stopped /\
    created w' = created w_restarted /\
    sourceSubscription w' = sourceSubscription w_restarted /\
    (forall s, subscribes s (trace w') = subscribes s (trace w_restarted)) /\
    (forall s, cancels s (trace w') = cancels s (trace w_restarted)) /\
    next_calls (trace w') = next_calls (trace w_restarted).
Proof.
  split; [ exact quiet_passive | ].
  split; [ reflexivity | split; [ reflexivity | ] ].
  exact (@stopped_until_start nat nat of_1_2_3 obj quiet 0
           [Deliver (NextN 4); Call Resume; Deliver (ErrorN 9); Call Pause;
            Call Stop] w_restarted quiet_passive eq_refl eq_refl).
Defined.

(** The callback pauses the controller on every value a [Subject]
    delivers. *)
Lemma resume_is_fresh_witness :
  calm subject pausing /\
  reached subject fn pausing 1 heap_empty [Call Start] =
    Some (mkWorld running (Some 0) 1 heap_empty [Subscribe 0]) /\
  exists w',
    run subject fn pausing 1 [Call Pause; Call Resume]
        (mkWorld running (Some 0) 1 heap_empty [Subscribe 0]) = Some w' /\
    state w' = running /\
    sourceSubscription w' = Some 1 /\
    0 < 1 /\
    cancels 0 (trace w') = 1.
Proof.
  split; [ exact (subject_calm pausing) | split; [ reflexivity | ] ].
  exact (@resume_is_fresh nat nat subject fn pausing 1 heap_empty
           [Call Start] 0 _ (subject_calm pausing) eq_refl eq_refl eq_refl).
Defined.

Lemma no_subscription_leaks_witness :
  calm subject pausing /\
  exists w,
    reached subject fn pausing 1 heap_empty
            [Call Start; Deliver (NextN 1); Call Resume; Call Stop] =
      Some w /\
    (forall s,
       subscribes s (trace w) <= 1 /\
       cancels s (trace w) =
       match sourceSubscription w with
       | Some s' => if Nat.eqb s' s then 0 else subscribes s (trace w)
       | None => subscribes s (trace w)
       end) /\
    (state w <> running ->
     forall s, cancels s (trace w) = subscribes s (trace w)).
Proof.
  split; [ exact (subject_calm pausing) | ].
  exact (@no_subscription_leaks nat nat subject fn pausing 0 heap_empty
           [Call Start; Deliver (NextN 1); Call Resume; Call Stop]
           (subject_calm pausing)).
Defined.

Lemma restart_like_new_witness :
  passive quiet /\ cold of_1_2_3 /\
  state w_restarted = stopped /\ heap w_restarted = heap_mock /\
  exists w' w0,
    run of_1_2_3 obj quiet 0 [Call Start; Deliver (NextN 7)] w_restarted =
      Some w' /\
    reached of_1_2_3 obj quiet 0 heap_mock [Call Start; Deliver (NextN 7)] =
      Some w0 /\
    state w' = state w0 /\
    sink_calls (trace w') =
    sink_calls (trace w_restarted) ++ sink_calls (trace w0).
Proof.
  split; [ exact quiet_passive | split; [ exact of_1_2_3_cold | ] ].
  split; [ reflexivity | split; [ reflexivity | ] ].
  exact (@restart_like_new nat nat of_1_2_3 obj quiet 0 heap_mock
           [Call Start; Deliver (NextN 7)] w_restarted
           quiet_passive of_1_2_3_cold eq_refl eq_refl).
Defined.

Lemma resume_replays_cold_source_witness :
  calm of_1_2_3 quiet /\ cold of_1_2_3 /\
  state w_stopped = stopped /\ state w_paused = paused /\
  heap w_stopped = heap w_paused /\
  exists w1' w2',
    exec (start of_1_2_3 obj quiet (pausable of_1_2_3 obj quiet 0))
         w_stopped = Some w1' /\
    exec (resume of_1_2_3 obj quiet (pausable of_1_2_3 obj quiet 0))
         w_paused = Some w2' /\
    sink_calls (trace w1') =
      sink_calls (trace w_stopped) ++
      relay_calls running (normalize obj (heap w_stopped)) (of_1_2_3 0) /\
    sink_calls (trace w2') =
      sink_calls (trace w_paused) ++
      relay_calls running (normalize obj (heap w_stopped)) (of_1_2_3 0).
Proof.
  split; [ exact (quiet_calm of_1_2_3) | split; [ exact of_1_2_3_cold | ] ].
  split; [ reflexivity | split; [ reflexivity | split; [ reflexivity | ] ] ].
  exact (@resume_replays_cold_source nat nat of_1_2_3 obj quiet 0
           w_stopped w_paused (quiet_calm of_1_2_3) of_1_2_3_cold
           eq_refl eq_refl eq_refl).
Defined.

Lemma paused_values_are_lost_witness :
  state w_paused = paused /\
  subject (created w_paused) = [] /\
  run subject obj pausing 0
      (map (fun v => Deliver (NextN v)) [2; 3] ++ [Call Resume]) w_paused =
  Some (mkWorld running (Some 1) 2 heap_mock
                [Subscribe 0; Unsubscribe 0; Subscribe 1]).
Proof.
  split; [ reflexivity | split; [ reflexivity | ] ].
  exact (@paused_values_are_lost nat nat subject obj pausing 0 [2; 3]
           w_paused eq_refl eq_refl).
Defined.

Lemma no_sink_no_calls_witness :
  exists w,
    reached of_1_2_3 None pausing 0 heap_mock
            [Call Start; Deliver (NextN 1); Deliver (ErrorN 2); Call Stop] =
      Some w /\
    sink_calls (trace w) = [].
Proof.
  exact (@no_sink_no_calls nat nat of_1_2_3 None pausing 0 heap_mock
           [Call Start; Deliver (NextN 1); Deliver (ErrorN 2); Call Stop]
           eq_refl).
Defined.

End Further.
